(** * A distance-vector (RIP) router: shallow embedding of [rip_router.py]

    The router object owns one nested dictionary, [routingTable]:
    neighbour -> (destination -> (distance, port)).  The handlers mutate that
    table, hand packets to the simulator through [send] and write log
    records.  Dictionaries are kept as insertion-ordered association lists,
    because the scans of the forwarder and of the announcer break ties by
    iteration order.  Failing subscripts ([d[k]] on a missing key) are kept as
    an explicit [KeyError] outcome. *)

From Stdlib Require Import ZArith List String Bool Lia.
Import ListNotations.
Local Open Scope string_scope.
Local Open Scope list_scope.
Local Open Scope Z_scope.

(** ** Identities and ports *)

(** An entity of the simulation, used as dictionary key.  [None] is the
    value of an unset [src]/[dst] field (Python's [None]). *)
Definition Entity := option string.
Definition Port := Z.

Definition Entity_eqb (a b : Entity) : bool :=
  match a, b with
  | None, None => true
  | Some x, Some y => String.eqb x y
  | _, _ => false
  end.

(** ** Dictionaries keyed by entities *)

Module Dict.
Section Ops.
Context {V : Type}.

Definition t := list (Entity * V).

Definition empty : t := [].

(** [d.get(k)]: the binding of [k], if any. *)
Fixpoint get (k : Entity) (d : t) : option V :=
  match d with
  | [] => None
  | (k', v) :: r => if Entity_eqb k k' then Some v else get k r
  end.

(** [k in d] *)
Definition mem (k : Entity) (d : t) : bool :=
  match get k d with Some _ => true | None => false end.

(** [d[k] = v]: an existing key keeps its position, a new key goes last. *)
Fixpoint set (k : Entity) (v : V) (d : t) : t :=
  match d with
  | [] => [(k, v)]
  | (k', v') :: r =>
      if Entity_eqb k k' then (k, v) :: r else (k', v') :: set k v r
  end.

(** [d.pop(k)]: the binding of [k] goes away. *)
Fixpoint pop (k : Entity) (d : t) : t :=
  match d with
  | [] => []
  | (k', v') :: r =>
      if Entity_eqb k k' then pop k r else (k', v') :: pop k r
  end.

Definition keys (d : t) : list Entity := map fst d.
Definition values (d : t) : list V := map snd d.
Definition items (d : t) : list (Entity * V) := d.

(** A dictionary holds each key once. *)
Definition wf (d : t) : Prop := NoDup (keys d).
End Ops.
Arguments t : clear implicits.
End Dict.

(** ** Packets *)

(** A route as stored in the table: the tuple [(distance, port)]. *)
Abbreviation Route := (Z * Port)%type (only parsing).

(** Modelled from the spec: the [RoutingUpdate] class of [sim.basics] is not
    part of the sources.  An advertisement carries an ordered collection of
    (destination, distance) pairs; it is built empty and entries are
    appended; [all_dests] lists the destinations and [get_distance] reads
    the distance advertised for one of them. *)
Definition Paths := list (Entity * Z).

Definition add_destination (paths : Paths) (dest : Entity) (distance : Z)
  : Paths := paths ++ [(dest, distance)].

Definition all_dests (paths : Paths) : list Entity := map fst paths.

Definition get_distance (paths : Paths) (dest : Entity) : option Z :=
  Dict.get dest paths.

(** Modelled from the spec: the packet classes of [sim.basics] are not part
    of the sources.  These are the three kinds of event the dispatcher tells
    apart, with the fields the router reads: a link-status notification
    (neighbour, link distance, up/down flag), an advertisement (source,
    destination/distance pairs) and a data payload with its destination.
    A packet made by [RoutingUpdate()] has no source yet. *)
Inductive Packet : Type :=
| DiscoveryPacket (src : Entity) (latency : Z) (is_link_up : bool)
| RoutingUpdate (src : Entity) (paths : Paths)
| DataPacket (src dst : Entity) (payload : string).

(** [type(packet).__name__] *)
Definition type_name (packet : Packet) : string :=
  match packet with
  | DiscoveryPacket _ _ _ => "DiscoveryPacket"
  | RoutingUpdate _ _ => "RoutingUpdate"
  | DataPacket _ _ _ => "DataPacket"
  end.

(** ** Log records, one constructor per [logging] call of the source *)

Inductive Level : Type := DEBUG | INFO | WARNING.

Inductive Message : Type :=
| MsgInit
| MsgReceived (port : Port) (kind : string)
| MsgLinkUp (src : Entity) (port : Port)
| MsgLinkDown (src : Entity)
| MsgUpdateFrom (src : Entity) (port : Port)
| MsgUnknownNeighbor (src : Entity)
| MsgTableUpdated (src : Entity)
| MsgDataFor (dst : Entity)
| MsgForwarding (port : Port) (dst : Entity)
| MsgNoRoute (dst : Entity)
| MsgAnnouncing
| MsgSendingUpdate (port : Port) (neighbor : Entity).

Definition LogRecord := (Level * Message)%type.

(** ** The router object and its effects *)

Definition Table := Dict.t (Dict.t Route).

Record RIPRouter : Type := mkRouter {
  routingTable : Table;
  (** packets handed to [self.send], oldest first *)
  sent : list (Packet * Port);
  (** records written through [logging], oldest first *)
  logged : list LogRecord
}.

Inductive result (A : Type) : Type :=
| Ret (a : A)
| KeyError (k : Entity).
Arguments Ret {A} a.
Arguments KeyError {A} k.

(** A method body: it transforms the router and either returns or raises. *)
Definition M (A : Type) : Type := RIPRouter -> RIPRouter * result A.

Definition ret {A} (a : A) : M A := fun s => (s, Ret a).

Definition bind {A B} (m : M A) (f : A -> M B) : M B :=
  fun s =>
    match m s with
    | (s', Ret a) => f a s'
    | (s', KeyError k) => (s', KeyError k)
    end.

Notation "x <- m ;; k" := (bind m (fun x => k))
  (at level 61, m at next level, right associativity).
Notation "m ;;; k" := (bind m (fun _ => k))
  (at level 61, right associativity).

Definition get_routingTable : M Table := fun s => (s, Ret (routingTable s)).

Definition set_routingTable (tbl : Table) : M unit :=
  fun s => (mkRouter tbl (sent s) (logged s), Ret tt).

(** Modelled from the spec: [send] belongs to the simulator ([sim.api]) and
    is not part of the sources.  [self.send(packet, port, False)] hands the
    packet over for emission out of [port]; the router keeps the list of
    what it handed over. *)
Definition send (packet : Packet) (port : Port) : M unit :=
  fun s => (mkRouter (routingTable s) (sent s ++ [(packet, port)]) (logged s),
            Ret tt).

Definition logging (lvl : Level) (msg : Message) : M unit :=
  fun s => (mkRouter (routingTable s) (sent s) (logged s ++ [(lvl, msg)]),
            Ret tt).

(** A lookup that raises [KeyError] when there is nothing under [k]. *)
Definition or_raise {V} (k : Entity) (o : option V) : M V :=
  fun s => match o with
           | Some v => (s, Ret v)
           | None => (s, KeyError k)
           end.

(** [d[k]] *)
Definition getitem {V} (d : Dict.t V) (k : Entity) : M V :=
  or_raise k (Dict.get k d).

(** [for x in l: body(x)] *)
Fixpoint for_each {A} (l : list A) (body : A -> M unit) : M unit :=
  match l with
  | [] => ret tt
  | x :: r => body x ;;; for_each r body
  end.

(** ** [__init__] *)

Definition init : RIPRouter := mkRouter Dict.empty [] [(INFO, MsgInit)].

(** ** [_announce] *)

(** One step of the first loop: keep the entry of [dest] unless it is new or
    strictly better. *)
Definition relax (acc : Dict.t Route) (entry : Entity * Route) : Dict.t Route :=
  let '(dest, (distance, port)) := entry in
  match Dict.get dest acc with
  | None => Dict.set dest (distance, port) acc
  | Some (best, _) =>
      if best >? distance then Dict.set dest (distance, port) acc else acc
  end.

Definition all_shortest_paths (tbl : Table) : Dict.t Route :=
  fold_left (fun acc routes => fold_left relax (Dict.items routes) acc)
            (Dict.values tbl) Dict.empty.

(** The inner loop of the second phase: split horizon on the port. *)
Definition split_horizon (best : Dict.t Route) (neighbor_port : Port) : Paths :=
  fold_left
    (fun paths entry =>
       let '(dest, (distance, port)) := entry in
       if port =? neighbor_port then paths
       else add_destination paths dest distance)
    (Dict.items best) [].

Definition _announce : M unit :=
  logging INFO MsgAnnouncing ;;;
  tbl <- get_routingTable ;;
  let best := all_shortest_paths tbl in
  for_each (Dict.items tbl) (fun item =>
    let '(neighbor, neighbor_routes) := item in
    self_route <- getitem neighbor_routes neighbor ;;
    let neighbor_port := snd self_route in
    let update_packet := RoutingUpdate None (split_horizon best neighbor_port) in
    logging DEBUG (MsgSendingUpdate neighbor_port neighbor) ;;;
    send update_packet neighbor_port).

(** ** [_handleDiscoveryPacket] *)

Definition _handleDiscoveryPacket (src : Entity) (latency : Z)
           (is_link_up : bool) (port : Port) : M unit :=
  if is_link_up then
    logging INFO (MsgLinkUp src port) ;;;
    tbl <- get_routingTable ;;
    set_routingTable (Dict.set src [(src, (latency, port))] tbl) ;;;
    _announce
  else
    logging INFO (MsgLinkDown src) ;;;
    tbl <- get_routingTable ;;
    if Dict.mem src tbl then
      set_routingTable (Dict.pop src tbl) ;;;
      _announce
    else ret tt.

(** ** [_handleRoutingUpdate] *)

(** The [for dest in dests] loop.  It works on the copy [neighbor_info] and
    reads the link distance from the table itself at every round. *)
Fixpoint merge (tbl : Table) (src : Entity) (paths : Paths) (port : Port)
         (dests : list Entity) (neighbor_info : Dict.t Route) (updated : bool)
  : M (Dict.t Route * bool) :=
  match dests with
  | [] => ret (neighbor_info, updated)
  | dest :: rest =>
      advertised <- or_raise dest (get_distance paths dest) ;;
      routes <- getitem tbl src ;;
      self_route <- getitem routes src ;;
      let new_distance := advertised + fst self_route in
      match Dict.get dest neighbor_info with
      | None =>
          merge tbl src paths port rest
                (Dict.set dest (new_distance, port) neighbor_info) true
      | Some (stored, _) =>
          if stored >? new_distance then
            merge tbl src paths port rest
                  (Dict.set dest (new_distance, port) neighbor_info) true
          else merge tbl src paths port rest neighbor_info updated
      end
  end.

Definition _handleRoutingUpdate (src : Entity) (paths : Paths) (port : Port)
  : M unit :=
  logging DEBUG (MsgUpdateFrom src port) ;;;
  tbl <- get_routingTable ;;
  if negb (Dict.mem src tbl) then
    logging WARNING (MsgUnknownNeighbor src)
  else
    neighbor_info <- getitem tbl src ;;
    r <- merge tbl src paths port (all_dests paths) neighbor_info false ;;
    let '(neighbor_info', updated) := r in
    if updated then
      set_routingTable (Dict.set src neighbor_info' tbl) ;;;
      logging INFO (MsgTableUpdated src) ;;;
      _announce
    else ret tt.

(** ** [_handleDataPacket] *)

(** The scan over [self.routingTable.items()]. *)
Definition shortest_path_step (dst : Entity) (shortest_path : option Route)
           (routes : Dict.t Route) : option Route :=
  match Dict.get dst routes with
  | None => shortest_path
  | Some candidate =>
      match shortest_path with
      | None => Some candidate
      | Some current =>
          if fst candidate <? fst current then Some candidate
          else shortest_path
      end
  end.

Definition find_shortest_path (tbl : Table) (dst : Entity) : option Route :=
  fold_left (shortest_path_step dst) (Dict.values tbl) None.

Definition _handleDataPacket (packet : Packet) (dst : Entity) (port : Port)
  : M unit :=
  logging DEBUG (MsgDataFor dst) ;;;
  tbl <- get_routingTable ;;
  match find_shortest_path tbl dst with
  | Some shortest_path =>
      logging INFO (MsgForwarding (snd shortest_path) dst) ;;;
      send packet (snd shortest_path)
  | None => logging WARNING (MsgNoRoute dst)
  end.

(** ** [handle_rx] *)

Definition handle_rx (packet : Packet) (port : Port) : M unit :=
  logging DEBUG (MsgReceived port (type_name packet)) ;;;
  match packet with
  | DiscoveryPacket src latency is_link_up =>
      _handleDiscoveryPacket src latency is_link_up port
  | RoutingUpdate src paths => _handleRoutingUpdate src paths port
  | DataPacket _ dst _ => _handleDataPacket packet dst port
  end.

(** The router after a method ran, and how the method ended. *)
Definition after {A} (m : M A) (s : RIPRouter) : RIPRouter := fst (m s).
Definition outcome {A} (m : M A) (s : RIPRouter) : result A := snd (m s).

(** Feeding a sequence of received packets, each with its arrival port. *)
Fixpoint run (events : list (Packet * Port)) (s : RIPRouter) : RIPRouter :=
  match events with
  | [] => s
  | (packet, port) :: rest => run rest (after (handle_rx packet port) s)
  end.

(** * Notions used in the statements *)

(** [keeps_table m]: whatever [m] does and however it ends, the routing table
    is the one it started with. *)
Definition keeps_table {A} (m : M A) : Prop :=
  forall s, routingTable (after m s) = routingTable s.

(** [first_best D sets r]: [r] is the route to [D] of the first set, in scan
    order, whose distance to [D] is minimal among all the sets holding [D]. *)
Definition first_best (D : Entity) (sets : list (Dict.t Route)) (r : Route)
  : Prop :=
  exists pre routes post,
    sets = pre ++ routes :: post
    /\ Dict.get D routes = Some r
    /\ (forall x r', In x pre -> Dict.get D x = Some r' -> fst r < fst r')
    /\ (forall x r', In x post -> Dict.get D x = Some r' -> fst r <= fst r').

(** The advertisement left by split horizon, as a filter of the best map. *)
Definition advertised (portN : Port) (best : Dict.t Route) : Paths :=
  map (fun e => (fst e, fst (snd e)))
      (filter (fun e => negb (snd (snd e) =? portN)) best).

(** Every neighbour's route set holds an entry for the neighbour itself. *)
Definition has_self_entries (tbl : Table) : Prop :=
  forall N routes, In (N, routes) tbl -> Dict.mem N routes = true.

(** [neighbor_routes[neighbor][1]], the port of the self-entry. *)
Definition self_port (item : Entity * Dict.t Route) : Port :=
  match Dict.get (fst item) (snd item) with
  | Some r => snd r
  | None => 0
  end.

(** What the second loop of the announcer hands to [send] for one item. *)
Definition update_for (best : Dict.t Route) (item : Entity * Dict.t Route)
  : Packet * Port :=
  (RoutingUpdate None (split_horizon best (self_port item)), self_port item).

Definition update_log (item : Entity * Dict.t Route) : LogRecord :=
  (DEBUG, MsgSendingUpdate (self_port item) (fst item)).

(** A router with two neighbours, A on port 1 and C on port 2, both knowing
    a way to B. *)
Definition two_neighbors : RIPRouter :=
  mkRouter [(Some "A", [(Some "A", (1, 1)); (Some "B", (3, 1))]);
            (Some "C", [(Some "C", (2, 2)); (Some "B", (3, 2))])]
           [] [(INFO, MsgInit)].

(** [improves link paths info dest]: the advertisement offers for [dest] a
    distance that the merge loop takes over [info]: [dest] is new to [info],
    or stored with a strictly greater distance than advertised + [link]. *)
Definition improves (link : Z) (paths : Paths) (info : Dict.t Route)
           (dest : Entity) : bool :=
  match get_distance paths dest with
  | None => false
  | Some advertised =>
      match Dict.get dest info with
      | None => true
      | Some (stored, _) => stored >? advertised + link
      end
  end.

Definition is_dest (dest : Entity) (dests : list Entity) : bool :=
  existsb (Entity_eqb dest) dests.

(** The router after link-up(A, 1) on port 1, with B already known through
    A at distance 5. *)
Definition one_neighbor : RIPRouter :=
  mkRouter [(Some "A", [(Some "A", (1, 1)); (Some "B", (5, 1))])]
           [] [(INFO, MsgInit)].

(** Link distances of link-ups and advertised distances are not negative. *)
Definition nonneg_event (e : Packet * Port) : Prop :=
  match fst e with
  | DiscoveryPacket _ latency is_link_up =>
      is_link_up = true -> 0 <= latency
  | RoutingUpdate _ paths => Forall (fun entry => 0 <= snd entry) paths
  | DataPacket _ _ _ => True
  end.

(** The link of [N] after one more event: a link-up of [N] replaces what was
    known, every other event keeps it. *)
Definition link_after (N : Entity) (known : option (Z * Port))
           (e : Packet * Port) : option (Z * Port) :=
  match e with
  | (DiscoveryPacket src latency true, port) =>
      if Entity_eqb src N then Some (latency, port) else known
  | _ => known
  end.

(** Distance and port of the most recent link-up of [N] among [events]. *)
Definition last_link_up (N : Entity) (events : list (Packet * Port))
  : option (Z * Port) :=
  fold_left (link_after N) events None.

(** How each event of a run ended. *)
Fixpoint outcomes (events : list (Packet * Port)) (s : RIPRouter)
  : list (result unit) :=
  match events with
  | [] => []
  | (packet, port) :: rest =>
      outcome (handle_rx packet port) s
      :: outcomes rest (after (handle_rx packet port) s)
  end.

(** The table is a dictionary of dictionaries, and each neighbour's set
    holds, under the neighbour itself, the link that [links] records. *)
Definition table_ok (links : Entity -> option (Z * Port)) (tbl : Table)
  : Prop :=
  Dict.wf tbl
  /\ forall N routes,
       In (N, routes) tbl ->
       Dict.wf routes
       /\ exists r, links N = Some r /\ Dict.get N routes = Some r.

(** Link-up of A, an advertisement from A, link-down and a second link-up of
    A on another port, then an advertisement that names A itself. *)
Definition sample_run : list (Packet * Port) :=
  [(DiscoveryPacket (Some "A") 1 true, 1);
   (RoutingUpdate (Some "A") [(Some "B", 2)], 1);
   (DiscoveryPacket (Some "A") 9 false, 1);
   (DiscoveryPacket (Some "A") 4 true, 2);
   (RoutingUpdate (Some "A") [(Some "A", 0); (Some "C", 1)], 2)].

(** An advertisement the router built itself: a [RoutingUpdate()] that has
    no source yet. *)
Definition fresh_update (e : Packet * Port) : Prop :=
  exists paths, fst e = RoutingUpdate None paths.

(** [emits P m]: [m] only appends to the sent packets and to the log, and
    every packet it appends satisfies [P], however [m] ends. *)
Definition emits {A} (P : Packet * Port -> Prop) (m : M A) : Prop :=
  forall s,
    exists new lg,
      sent (after m s) = sent s ++ new
      /\ Forall P new
      /\ logged (after m s) = logged s ++ lg.

(** What handling [packet] may hand to [send]: the packet itself when it is
    a data packet, advertisements of the router's own making otherwise. *)
Definition emitted_for (packet : Packet) (e : Packet * Port) : Prop :=
  match packet with
  | DataPacket _ _ _ => fst e = packet
  | _ => fresh_update e
  end.

(** Whether the link to [N] is up after one more event: a link notification
    about [N] decides, every other event keeps what was known. *)
Definition is_up_after (N : Entity) (up : bool) (e : Packet * Port) : bool :=
  match fst e with
  | DiscoveryPacket src _ is_link_up =>
      if Entity_eqb src N then is_link_up else up
  | _ => up
  end.

(** Whether the latest link notification about [N] among [events] said up. *)
Definition link_is_up (N : Entity) (events : list (Packet * Port)) : bool :=
  fold_left (is_up_after N) events false.

(** The table is a dictionary whose route sets are dictionaries, each
    holding an entry for its own neighbour. *)
Definition sound_table (tbl : Table) : Prop :=
  Dict.wf tbl
  /\ forall N routes,
       In (N, routes) tbl -> Dict.wf routes /\ Dict.mem N routes = true.

(** Every distance stored in a route set, and in a table, is non-negative. *)
Definition nonneg_routes (routes : Dict.t Route) : Prop :=
  Forall (fun entry => 0 <= fst (snd entry)) routes.

Definition nonneg_table (tbl : Table) : Prop :=
  Forall (fun item => nonneg_routes (snd item)) tbl.

(** A sound table with non-negative distances, and nothing but
    non-negative advertisements sent so far. *)
Definition nonneg_router (s : RIPRouter) : Prop :=
  sound_table (routingTable s)
  /\ nonneg_table (routingTable s)
  /\ Forall nonneg_event (sent s).

(** Between the route sets [routes] (before) and [routes'] (after), some
    destination was added, or is stored with a strictly smaller distance. *)
Definition added_or_lowered (routes routes' : Dict.t Route) : Prop :=
  exists dest,
    match Dict.get dest routes, Dict.get dest routes' with
    | None, Some _ => True
    | Some (stored, _), Some (stored', _) => stored' < stored
    | _, None => False
    end.

(** * Properties *)

(** ** Equality of entities *)

Lemma Entity_eqb_spec (a b : Entity) : reflect (a = b) (Entity_eqb a b).
Proof.
  destruct a as [x|], b as [y|]; simpl; try (constructor; congruence).
  destruct (String.eqb_spec x y); constructor; congruence.
Qed.

Lemma Entity_eqb_refl (a : Entity) : Entity_eqb a a = true.
Proof. destruct (Entity_eqb_spec a a); congruence. Qed.

Lemma Entity_eqb_neq (a b : Entity) : a <> b -> Entity_eqb a b = false.
Proof. destruct (Entity_eqb_spec a b); congruence. Qed.

(** ** Dictionary laws *)

Section DictLaws.
Context {V : Type}.
Implicit Types (d : Dict.t V) (k : Entity) (v : V).

Lemma get_set_same k v d : Dict.get k (Dict.set k v d) = Some v.
Proof.
  induction d as [|[k' v'] r IH]; simpl.
  - now rewrite Entity_eqb_refl.
  - destruct (Entity_eqb k k') eqn:E; simpl; rewrite ?Entity_eqb_refl, ?E; auto.
Qed.

Lemma get_set_other k k' v d :
  k' <> k -> Dict.get k' (Dict.set k v d) = Dict.get k' d.
Proof.
  intros Hne. induction d as [|[k0 v0] r IH]; simpl.
  - now rewrite Entity_eqb_neq.
  - destruct (Entity_eqb_spec k k0) as [->|Hk]; simpl.
    + now rewrite Entity_eqb_neq.
    + now rewrite IH.
Qed.

Lemma get_pop_same k d : Dict.get k (Dict.pop k d) = None.
Proof.
  induction d as [|[k' v'] r IH]; simpl; auto.
  destruct (Entity_eqb k k') eqn:E; simpl; rewrite ?E; auto.
Qed.

Lemma get_pop_other k k' d :
  k' <> k -> Dict.get k' (Dict.pop k d) = Dict.get k' d.
Proof.
  intros Hne. induction d as [|[k0 v0] r IH]; simpl; auto.
  destruct (Entity_eqb_spec k k0) as [->|Hk]; simpl.
  - now rewrite Entity_eqb_neq.
  - now rewrite IH.
Qed.

Lemma get_In k v d : Dict.get k d = Some v -> In (k, v) d.
Proof.
  induction d as [|[k' v'] r IH]; simpl; [discriminate|].
  destruct (Entity_eqb_spec k k') as [->|Hk]; intros H.
  - left. congruence.
  - right. auto.
Qed.

Lemma get_None_keys k d : Dict.get k d = None <-> ~ In k (Dict.keys d).
Proof.
  induction d as [|[k' v'] r IH]; simpl.
  - tauto.
  - destruct (Entity_eqb_spec k k') as [->|Hk].
    + split; [discriminate | intros H; exfalso; apply H; now left].
    + rewrite IH. split; intros H; [intros [?|?]; [congruence|tauto] | tauto].
Qed.

Lemma In_get k v d : Dict.wf d -> In (k, v) d -> Dict.get k d = Some v.
Proof.
  unfold Dict.wf. induction d as [|[k' v'] r IH]; simpl; [tauto|].
  intros Hnd [Heq|Hin]; inversion Hnd as [|? ? Hnotin Hnd']; subst.
  - inversion Heq; subst. now rewrite Entity_eqb_refl.
  - destruct (Entity_eqb_spec k k') as [->|Hk]; auto.
    exfalso. apply Hnotin. change (In (fst (k', v)) (map fst r)).
    now apply in_map.
Qed.

Lemma keys_set k v d :
  Dict.keys (Dict.set k v d)
  = if Dict.mem k d then Dict.keys d else Dict.keys d ++ [k].
Proof.
  unfold Dict.mem. induction d as [|[k' v'] r IH]; simpl; auto.
  destruct (Entity_eqb_spec k k') as [->|Hk]; simpl; auto.
  rewrite IH. now destruct (Dict.get k r).
Qed.

Lemma wf_set k v d : Dict.wf d -> Dict.wf (Dict.set k v d).
Proof.
  unfold Dict.wf. rewrite keys_set. unfold Dict.mem.
  destruct (Dict.get k d) eqn:E; auto.
  intros Hnd. apply get_None_keys in E.
  apply NoDup_app; auto.
  - constructor; [simpl; tauto | constructor].
  - intros x Hx [<-|[]]. contradiction.
Qed.

Lemma In_keys_pop k k' d :
  In k' (Dict.keys (Dict.pop k d)) -> In k' (Dict.keys d).
Proof.
  induction d as [|[k0 v0] r IH]; simpl; auto.
  destruct (Entity_eqb k k0); simpl; tauto.
Qed.

Lemma wf_pop k d : Dict.wf d -> Dict.wf (Dict.pop k d).
Proof.
  unfold Dict.wf. induction d as [|[k0 v0] r IH]; simpl; auto.
  intros Hnd. inversion Hnd as [|? ? Hnotin Hnd']; subst.
  destruct (Entity_eqb k k0); simpl; auto.
  constructor; auto. intros Hin. apply Hnotin. now apply In_keys_pop in Hin.
Qed.

Lemma mem_true_iff k d : Dict.mem k d = true <-> exists v, Dict.get k d = Some v.
Proof.
  unfold Dict.mem. destruct (Dict.get k d); split; intros H; eauto;
    try discriminate. now destruct H.
Qed.

Lemma mem_false_iff k d : Dict.mem k d = false <-> Dict.get k d = None.
Proof.
  unfold Dict.mem. destruct (Dict.get k d); split; intros H; eauto;
    discriminate.
Qed.
Lemma In_set k0 v0 k v d :
  Dict.wf d -> In (k0, v0) (Dict.set k v d) ->
  (k0 = k /\ v0 = v) \/ (k0 <> k /\ In (k0, v0) d).
Proof.
  unfold Dict.wf. induction d as [|[k' v'] r IH]; simpl; intros Hwf Hin.
  - destruct Hin as [E|[]]. inversion E. auto.
  - inversion Hwf as [|? ? Hnotin Hwf']; subst.
    destruct (Entity_eqb_spec k k') as [->|Hk]; simpl in Hin.
    + destruct Hin as [E|Hin]; [inversion E; auto|].
      right. split; auto. intros ->. apply Hnotin.
      change (In (fst (k', v0)) (map fst r)). now apply in_map.
    + destruct Hin as [E|Hin]; [inversion E; subst; auto|].
      destruct (IH Hwf' Hin) as [?|[? ?]]; auto.
Qed.

Lemma In_pop k0 v0 k d : In (k0, v0) (Dict.pop k d) -> In (k0, v0) d.
Proof.
  induction d as [|[k' v'] r IH]; simpl; auto.
  destruct (Entity_eqb k k'); simpl; tauto.
Qed.
End DictLaws.

(** ** Methods that leave the table alone *)

Lemma keeps_table_ret {A} (a : A) : keeps_table (ret a).
Proof. intros s. reflexivity. Qed.

Lemma keeps_table_logging lvl msg : keeps_table (logging lvl msg).
Proof. intros s. reflexivity. Qed.

Lemma keeps_table_send packet port : keeps_table (send packet port).
Proof. intros s. reflexivity. Qed.

Lemma keeps_table_get_routingTable : keeps_table get_routingTable.
Proof. intros s. reflexivity. Qed.

Lemma keeps_table_or_raise {V} k (o : option V) : keeps_table (or_raise k o).
Proof. intros s. unfold after, or_raise. now destruct o. Qed.

Lemma keeps_table_bind {A B} (m : M A) (f : A -> M B) :
  keeps_table m -> (forall a, keeps_table (f a)) -> keeps_table (bind m f).
Proof.
  intros Hm Hf s. unfold after, bind. specialize (Hm s). unfold after in Hm.
  destruct (m s) as [s' [a|k]]; simpl in *; auto.
  rewrite <- Hm. apply Hf.
Qed.

Lemma keeps_table_for_each {A} (l : list A) (body : A -> M unit) :
  (forall x, keeps_table (body x)) -> keeps_table (for_each l body).
Proof.
  intros Hb. induction l as [|x r IH]; simpl.
  - apply keeps_table_ret.
  - apply keeps_table_bind; auto.
Qed.

Create HintDb frame.

#[local] Hint Resolve keeps_table_ret keeps_table_logging keeps_table_send
  keeps_table_get_routingTable keeps_table_or_raise : frame.

Ltac frame :=
  repeat first
    [ progress auto with frame
    | apply keeps_table_bind; [|intros ?]
    | apply keeps_table_for_each; intros [? ?] ].

Lemma keeps_table_announce : keeps_table _announce.
Proof. unfold _announce, getitem. frame. Qed.

Lemma keeps_table_handleDataPacket packet dst port :
  keeps_table (_handleDataPacket packet dst port).
Proof.
  unfold _handleDataPacket. frame.
  destruct (find_shortest_path _ dst); frame.
Qed.

(** ** The frame of the forwarder and of the announcer *)

(** C10: handling a data packet and running the announcer leave the routing
    table exactly as it was, for every router state, whether the handler is
    entered directly or through the dispatcher; the table can only change in
    the link-up, link-down and advertisement handlers. *)
Theorem forwarder_and_announcer_keep_table :
  (forall packet dst port s,
      routingTable (after (_handleDataPacket packet dst port) s)
      = routingTable s)
  /\ (forall s, routingTable (after _announce s) = routingTable s)
  /\ (forall src dst payload port s,
         routingTable (after (handle_rx (DataPacket src dst payload) port) s)
         = routingTable s).
Proof.
  split; [|split].
  - intros. apply keeps_table_handleDataPacket.
  - apply keeps_table_announce.
  - intros. unfold handle_rx.
    apply keeps_table_bind; [apply keeps_table_logging|].
    intros _. apply keeps_table_handleDataPacket.
Qed.

(** ** Link handler *)

(** C6: a link-up for neighbour [N] with distance [d] on port [p] binds [N]
    in the table to the one-entry route set [{N: (d, p)}], whatever was known
    through [N] before, leaves the other neighbours alone, and then runs the
    announcer; on a fresh router the table is [{N: {N: (d, p)}}]. *)
Theorem link_up_resets_neighbor :
  forall N d p s,
    _handleDiscoveryPacket N d true p s
    = _announce (mkRouter (Dict.set N [(N, (d, p))] (routingTable s))
                          (sent s) (logged s ++ [(INFO, MsgLinkUp N p)]))
    /\ Dict.get N (routingTable (after (_handleDiscoveryPacket N d true p) s))
       = Some [(N, (d, p))]
    /\ (forall k, k <> N ->
          Dict.get k (routingTable (after (_handleDiscoveryPacket N d true p) s))
          = Dict.get k (routingTable s))
    /\ routingTable (after (handle_rx (DiscoveryPacket N d true) p) init)
       = [(N, [(N, (d, p))])].
Proof.
  intros N d p s.
  assert (E : _handleDiscoveryPacket N d true p s
              = _announce (mkRouter (Dict.set N [(N, (d, p))] (routingTable s))
                            (sent s) (logged s ++ [(INFO, MsgLinkUp N p)])))
    by reflexivity.
  split; [exact E|].
  unfold after. rewrite E.
  pose proof keeps_table_announce as K. unfold keeps_table, after in K.
  rewrite K. simpl. split; [apply get_set_same|]. split.
  - intros k Hk. now apply get_set_other.
  - unfold handle_rx.
    change (routingTable (fst (_announce
              (mkRouter (Dict.set N [(N, (d, p))] (routingTable init)) []
                 ((logged init ++ [(DEBUG, MsgReceived p "DiscoveryPacket")])
                    ++ [(INFO, MsgLinkUp N p)]))))
            = [(N, [(N, (d, p))])]).
    rewrite K. reflexivity.
Qed.

(** C7: a link-down for neighbour [N].  When [N] is a key of the table its
    whole entry is popped (afterwards [N] is no key, the other neighbours
    keep their sets) and the announcer runs on the smaller table; when [N]
    is no key the handler returns normally with the table and the sent
    packets untouched, having written only its log line. *)
Theorem link_down_forgets_neighbor :
  forall N latency port s,
    if Dict.mem N (routingTable s) then
      _handleDiscoveryPacket N latency false port s
      = _announce (mkRouter (Dict.pop N (routingTable s)) (sent s)
                            (logged s ++ [(INFO, MsgLinkDown N)]))
      /\ Dict.mem N (routingTable
                       (after (_handleDiscoveryPacket N latency false port) s))
         = false
      /\ (forall k, k <> N ->
            Dict.get k (routingTable
                          (after (_handleDiscoveryPacket N latency false port) s))
            = Dict.get k (routingTable s))
    else
      _handleDiscoveryPacket N latency false port s
      = (mkRouter (routingTable s) (sent s)
                  (logged s ++ [(INFO, MsgLinkDown N)]), Ret tt).
Proof.
  intros N latency port s.
  destruct (Dict.mem N (routingTable s)) eqn:Hmem.
  - assert (E : _handleDiscoveryPacket N latency false port s
                = _announce (mkRouter (Dict.pop N (routingTable s)) (sent s)
                               (logged s ++ [(INFO, MsgLinkDown N)]))).
    { unfold _handleDiscoveryPacket, bind, logging, get_routingTable. simpl.
      rewrite Hmem. reflexivity. }
    split; [exact E|].
    unfold after. rewrite E.
    pose proof keeps_table_announce as K. unfold keeps_table, after in K.
    rewrite K. simpl. split.
    + apply mem_false_iff, get_pop_same.
    + intros k Hk. now apply get_pop_other.
  - unfold _handleDiscoveryPacket, bind, logging, get_routingTable. simpl.
    rewrite Hmem. reflexivity.
Qed.

(** ** Advertisements from strangers *)

(** C8: an advertisement whose source is no key of the table is dropped:
    the handler returns normally, the table and the sent packets are those
    of before, and the log gains the entry line and one warning.  The same
    holds when the packet comes in through the dispatcher. *)
Theorem unknown_neighbor_update_is_dropped :
  forall src paths port s,
    Dict.mem src (routingTable s) = false ->
    _handleRoutingUpdate src paths port s
    = (mkRouter (routingTable s) (sent s)
                (logged s ++ [(DEBUG, MsgUpdateFrom src port);
                              (WARNING, MsgUnknownNeighbor src)]),
       Ret tt)
    /\ routingTable (after (handle_rx (RoutingUpdate src paths) port) s)
       = routingTable s
    /\ sent (after (handle_rx (RoutingUpdate src paths) port) s) = sent s
    /\ outcome (handle_rx (RoutingUpdate src paths) port) s = Ret tt.
Proof.
  intros src paths port s Hmem.
  unfold after, outcome, handle_rx, _handleRoutingUpdate, bind, logging,
    get_routingTable.
  simpl. rewrite Hmem. simpl. rewrite <- app_assoc. auto.
Qed.

Lemma unknown_neighbor_update_is_dropped_witness :
  Dict.mem (Some "Z") (routingTable init) = false
  /\ _handleRoutingUpdate (Some "Z") [(Some "B", 2)] 4 init
     = (mkRouter [] [] [(INFO, MsgInit); (DEBUG, MsgUpdateFrom (Some "Z") 4);
                        (WARNING, MsgUnknownNeighbor (Some "Z"))], Ret tt).
Proof.
  split; [reflexivity|].
  apply (unknown_neighbor_update_is_dropped (Some "Z") [(Some "B", 2)] 4 init).
  reflexivity.
Defined.

(** ** The two-event scenario *)

(** C9: a fresh router receives link-up(A, distance 1) on port 1: the table
    is [{A: {A: (1, 1)}}] and exactly one advertisement, with no entry, goes
    out of port 1.  It then receives from A, on port 1, the advertisement
    [{B: 2}]: the entry of B under A becomes [(3, 1)] and one more
    advertisement goes out of port 1, again with no entry (so without B). *)
Theorem scenario_link_up_then_update :
  let A := Some "A" in
  let B := Some "B" in
  let s1 := after (handle_rx (DiscoveryPacket A 1 true) 1) init in
  let s2 := after (handle_rx (RoutingUpdate A [(B, 2)]) 1) s1 in
  routingTable init = []
  /\ routingTable s1 = [(A, [(A, (1, 1))])]
  /\ sent s1 = [(RoutingUpdate None [], 1)]
  /\ outcome (handle_rx (DiscoveryPacket A 1 true) 1) init = Ret tt
  /\ option_map (Dict.get B) (Dict.get A (routingTable s2)) = Some (Some (3, 1))
  /\ routingTable s2 = [(A, [(A, (1, 1)); (B, (3, 1))])]
  /\ sent s2 = sent s1 ++ [(RoutingUpdate None [], 1)]
  /\ get_distance [] B = None
  /\ outcome (handle_rx (RoutingUpdate A [(B, 2)]) 1) s1 = Ret tt.
Proof. cbv zeta. repeat split; vm_compute; reflexivity. Qed.

(** ** Forwarder *)

Lemma first_best_here D x l r :
  Dict.get D x = Some r ->
  (forall y r', In y l -> Dict.get D y = Some r' -> fst r <= fst r') ->
  first_best D (x :: l) r.
Proof.
  intros Hx Hl. exists [], x, l. repeat split; auto. intros ? ? [].
Qed.

Lemma first_best_later D x l r :
  first_best D l r ->
  (forall r', Dict.get D x = Some r' -> fst r < fst r') ->
  first_best D (x :: l) r.
Proof.
  intros (pre & routes & post & -> & Hget & Hpre & Hpost) Hx.
  exists (x :: pre), routes, post. repeat split; auto.
  intros y r' [<-|Hin] Hy; eauto.
Qed.

(** Two lookups of one key in one set give one route. *)
Ltac same_route H1 H2 :=
  let E := fresh "E" in
  pose proof (eq_trans (eq_sym H1) H2) as E; inversion E; subst; clear E.

Lemma scan_spec D l : forall acc,
  match fold_left (shortest_path_step D) l acc with
  | None => acc = None /\ forall x, In x l -> Dict.get D x = None
  | Some r =>
      (acc = Some r
       /\ forall x r', In x l -> Dict.get D x = Some r' -> fst r <= fst r')
      \/ (first_best D l r /\ forall a, acc = Some a -> fst r < fst a)
  end.
Proof.
  induction l as [|x l IH]; intros acc; simpl.
  - destruct acc; [left|]; split; auto; simpl; intros; contradiction.
  - specialize (IH (shortest_path_step D acc x)).
    destruct (fold_left (shortest_path_step D) l (shortest_path_step D acc x))
      as [r|]; unfold shortest_path_step in IH.
    + destruct (Dict.get D x) as [c|] eqn:Hx.
      * destruct acc as [a|].
        -- destruct (Z.ltb_spec (fst c) (fst a)) as [Hlt|Hge].
           ++ destruct IH as [[E Hl]|[Hfb Ha]].
              ** inversion E; subst c. right. split.
                 { now apply first_best_here. }
                 { intros a' Ea. inversion Ea; subst. lia. }
              ** right. specialize (Ha c eq_refl). split.
                 { apply first_best_later; auto. intros r' Er'.
                   same_route Hx Er'. lia. }
                 { intros a' Ea. inversion Ea; subst. lia. }
           ++ destruct IH as [[E Hl]|[Hfb Ha]].
              ** inversion E; subst a. left. split; auto.
                 intros y r' [<-|Hin] Hy; eauto.
                 same_route Hx Hy. lia.
              ** right. specialize (Ha a eq_refl). split.
                 { apply first_best_later; auto. intros r' Er'.
                   same_route Hx Er'. lia. }
                 { intros a' Ea. inversion Ea; subst. lia. }
        -- destruct IH as [[E Hl]|[Hfb Ha]].
           ++ inversion E; subst c. right. split.
              { now apply first_best_here. }
              { intros a' Ea. discriminate. }
           ++ right. specialize (Ha c eq_refl). split.
              { apply first_best_later; auto. intros r' Er'.
                same_route Hx Er'. lia. }
              { intros a' Ea. discriminate. }
      * destruct IH as [[E Hl]|[Hfb Ha]].
        -- left. split; auto. intros y r' [<-|Hin] Hy; eauto.
           pose proof (eq_trans (eq_sym Hx) Hy). discriminate.
        -- right. split; auto. apply first_best_later; auto.
           intros r' Er'. pose proof (eq_trans (eq_sym Hx) Er'). discriminate.
    + destruct IH as [E Hl].
      destruct (Dict.get D x) as [c|] eqn:Hx.
      * destruct acc as [a|]; [|discriminate].
        destruct (fst c <? fst a); discriminate.
      * split; auto. intros y [<-|Hin]; auto.
Qed.

(** C3: the forwarder scans the route sets of all neighbours for the
    destination [D].  When some set holds [D], the route it picks is the one
    of the first set, in scan order, with the minimal distance (strictly
    smaller than every earlier set's, at most every later set's), and the
    packet itself is sent out of that route's port; when no set holds [D],
    nothing is sent, the handler returns normally and only log records are
    written.  The table is untouched either way. *)
Theorem forwarder_picks_first_minimum :
  forall packet D port s,
    match find_shortest_path (routingTable s) D with
    | Some r =>
        first_best D (Dict.values (routingTable s)) r
        /\ _handleDataPacket packet D port s
           = (mkRouter (routingTable s) (sent s ++ [(packet, snd r)])
                       (logged s ++ [(DEBUG, MsgDataFor D);
                                     (INFO, MsgForwarding (snd r) D)]),
              Ret tt)
    | None =>
        (forall routes, In routes (Dict.values (routingTable s)) ->
                        Dict.get D routes = None)
        /\ _handleDataPacket packet D port s
           = (mkRouter (routingTable s) (sent s)
                       (logged s ++ [(DEBUG, MsgDataFor D);
                                     (WARNING, MsgNoRoute D)]),
              Ret tt)
    end.
Proof.
  intros packet D port s.
  pose proof (scan_spec D (Dict.values (routingTable s)) None) as H.
  unfold _handleDataPacket, bind, logging, get_routingTable, send. simpl.
  unfold find_shortest_path in *.
  destruct (fold_left (shortest_path_step D) (Dict.values (routingTable s)) None)
    as [r|]; simpl; rewrite <- app_assoc; simpl.
  - destruct H as [[E _]|[Hfb _]]; [discriminate|]. split; auto.
  - destruct H as [_ Hl]. split; auto.
Qed.

(** ** Announcer *)

Lemma relax_get dest acc k r :
  Dict.get dest (relax acc (k, r))
  = if Entity_eqb dest k then
      match Dict.get dest acc with
      | None => Some r
      | Some cur => if fst r <? fst cur then Some r else Some cur
      end
    else Dict.get dest acc.
Proof.
  destruct r as [d p]. unfold relax.
  destruct (Entity_eqb_spec dest k) as [->|Hne].
  - destruct (Dict.get k acc) as [[b q]|] eqn:E; simpl.
    + rewrite Z.gtb_ltb. destruct (d <? b); [apply get_set_same | exact E].
    + apply get_set_same.
  - destruct (Dict.get k acc) as [[b q]|]; [destruct (b >? d)|];
      auto using get_set_other.
Qed.

Lemma wf_relax acc e : Dict.wf acc -> Dict.wf (relax acc e).
Proof.
  destruct e as [k [d p]]. unfold relax. intros H.
  destruct (Dict.get k acc) as [[b q]|]; [destruct (b >? d)|];
    auto using wf_set.
Qed.

Lemma wf_fold_relax routes : forall acc,
  Dict.wf acc -> Dict.wf (fold_left relax routes acc).
Proof.
  induction routes as [|e r IH]; simpl; auto using wf_relax.
Qed.

Lemma fold_relax_get dest routes : forall acc,
  Dict.wf routes ->
  Dict.get dest (fold_left relax (Dict.items routes) acc)
  = shortest_path_step dest (Dict.get dest acc) routes.
Proof.
  unfold Dict.items, Dict.wf.
  induction routes as [|[k r] rest IH]; intros acc Hwf.
  - reflexivity.
  - simpl in Hwf. inversion Hwf as [|? ? Hnotin Hwf']; subst.
    cbn [fold_left]. rewrite IH by assumption. rewrite relax_get.
    unfold shortest_path_step. cbn [Dict.get].
    destruct (Entity_eqb_spec dest k) as [->|Hne]; auto.
    apply get_None_keys in Hnotin. rewrite Hnotin.
    destruct (Dict.get k acc) as [cur|]; auto.
Qed.

Lemma fold_routes_get dest sets : forall acc,
  Forall Dict.wf sets ->
  Dict.get dest
    (fold_left (fun acc routes => fold_left relax (Dict.items routes) acc)
               sets acc)
  = fold_left (shortest_path_step dest) sets (Dict.get dest acc).
Proof.
  induction sets as [|routes rest IH]; intros acc Hwf; simpl; auto.
  inversion Hwf; subst. rewrite IH by assumption.
  now rewrite fold_relax_get.
Qed.

Lemma wf_all_shortest_paths tbl : Dict.wf (all_shortest_paths tbl).
Proof.
  unfold all_shortest_paths.
  assert (G : forall sets acc, Dict.wf acc ->
            Dict.wf (fold_left
                       (fun acc routes => fold_left relax (Dict.items routes) acc)
                       sets acc)).
  { induction sets as [|x r IH]; simpl; auto.
    intros acc H. apply IH. now apply wf_fold_relax. }
  apply G. constructor.
Qed.

Lemma split_horizon_advertised best portN :
  split_horizon best portN = advertised portN best.
Proof.
  unfold split_horizon, advertised, Dict.items.
  assert (G : forall l acc,
    fold_left (fun (paths : Paths) (entry : Entity * Route) =>
                 let '(dest, (distance, port)) := entry in
                 if port =? portN then paths
                 else add_destination paths dest distance) l acc
    = acc ++ map (fun e => (fst e, fst (snd e)))
                 (filter (fun e => negb (snd (snd e) =? portN)) l)).
  { induction l as [|[dest [d p]] r IH]; intros acc; simpl.
    - now rewrite app_nil_r.
    - rewrite IH. destruct (p =? portN); simpl; auto.
      unfold add_destination. now rewrite <- app_assoc. }
  apply G.
Qed.

Lemma advertised_get portN dest best :
  Dict.wf best ->
  Dict.get dest (advertised portN best)
  = match Dict.get dest best with
    | Some (d, p) => if p =? portN then None else Some d
    | None => None
    end.
Proof.
  unfold advertised, Dict.wf.
  induction best as [|[k [d p]] r IH]; intros Hwf; simpl; auto.
  inversion Hwf as [|? ? Hnotin Hwf']; subst.
  destruct (Entity_eqb_spec dest k) as [->|Hne].
  - destruct (p =? portN); simpl.
    + rewrite IH by assumption. apply get_None_keys in Hnotin.
      now rewrite Hnotin.
    + now rewrite Entity_eqb_refl.
  - destruct (p =? portN); simpl; rewrite ?Entity_eqb_neq by assumption; auto.
Qed.

Lemma advertised_keys portN best :
  Dict.wf best -> NoDup (all_dests (advertised portN best)).
Proof.
  unfold advertised, all_dests, Dict.wf, Dict.keys.
  rewrite map_map. simpl.
  induction best as [|[k [d p]] r IH]; intros Hwf; simpl; [constructor|].
  inversion Hwf as [|? ? Hnotin Hwf']; subst.
  destruct (p =? portN); simpl; auto.
  constructor; auto. intros Hin. apply Hnotin.
  apply in_map_iff in Hin. destruct Hin as (e & <- & He).
  apply filter_In in He. apply in_map. tauto.
Qed.

Lemma announce_loop best (items : list (Entity * Dict.t Route)) :
  (forall N routes, In (N, routes) items -> Dict.mem N routes = true) ->
  forall s,
    for_each items (fun item =>
      let '(neighbor, neighbor_routes) := item in
      self_route <- getitem neighbor_routes neighbor ;;
      let neighbor_port := snd self_route in
      let update_packet :=
        RoutingUpdate None (split_horizon best neighbor_port) in
      logging DEBUG (MsgSendingUpdate neighbor_port neighbor) ;;;
      send update_packet neighbor_port) s
    = (mkRouter (routingTable s) (sent s ++ map (update_for best) items)
                (logged s ++ map update_log items), Ret tt).
Proof.
  induction items as [|[N routes] rest IH]; intros Hself s; simpl.
  - rewrite !app_nil_r. now destruct s.
  - assert (Hmem : Dict.mem N routes = true) by (apply Hself; now left).
    apply mem_true_iff in Hmem. destruct Hmem as [r Hr].
    unfold bind at 1. unfold bind at 1. unfold getitem, or_raise.
    rewrite Hr. unfold bind at 1. unfold logging at 1. unfold send at 1.
    cbn [routingTable sent logged].
    rewrite IH by (intros; apply Hself; now right).
    cbn [routingTable sent logged].
    unfold update_for at 2, update_log at 2, self_port. cbn [fst snd].
    rewrite Hr. now rewrite <- !app_assoc.
Qed.

Lemma announce_returns s :
  has_self_entries (routingTable s) ->
  _announce s
  = (mkRouter (routingTable s)
       (sent s ++ map (update_for (all_shortest_paths (routingTable s)))
                      (Dict.items (routingTable s)))
       (logged s ++ (INFO, MsgAnnouncing)
                  :: map update_log (Dict.items (routingTable s))),
     Ret tt).
Proof.
  intros Hself.
  unfold _announce. unfold bind at 1. unfold logging at 1.
  unfold bind at 1. unfold get_routingTable at 1.
  cbn [routingTable sent logged].
  rewrite (announce_loop _ _ Hself). cbn [routingTable sent logged].
  now rewrite <- app_assoc.
Qed.

(** C2: on a table whose route sets are dictionaries and hold their
    self-entries, the announcer first builds the map [best], which for every
    destination equals what the forwarder's scan finds (the first route of
    minimal distance over all the route sets, and nothing when no set holds
    the destination); then it sends, for each item (N, routes) of the table
    in order, one advertisement out of N's self-entry port, and that
    advertisement lists, once each, exactly the pairs (dest, distance) of
    [best] whose port differs from that port, also when there is none. *)
Theorem announcer_sends_split_horizon_updates :
  forall s,
    Forall Dict.wf (Dict.values (routingTable s)) ->
    has_self_entries (routingTable s) ->
    let tbl := routingTable s in
    let best := all_shortest_paths tbl in
    (forall dest, Dict.get dest best = find_shortest_path tbl dest)
    /\ (forall dest,
          match Dict.get dest best with
          | Some r => first_best dest (Dict.values tbl) r
          | None => forall routes, In routes (Dict.values tbl) ->
                                   Dict.get dest routes = None
          end)
    /\ _announce s
       = (mkRouter tbl (sent s ++ map (update_for best) (Dict.items tbl))
                   (logged s ++ (INFO, MsgAnnouncing)
                              :: map update_log (Dict.items tbl)),
          Ret tt)
    /\ (forall portN dest d,
          get_distance (split_horizon best portN) dest = Some d
          <-> exists p, Dict.get dest best = Some (d, p) /\ p <> portN)
    /\ (forall portN, NoDup (all_dests (split_horizon best portN))).
Proof.
  intros s Hwf Hself tbl best.
  assert (Hbest : forall dest, Dict.get dest best = find_shortest_path tbl dest).
  { intros dest. unfold best, all_shortest_paths, find_shortest_path.
    now rewrite fold_routes_get. }
  split; [exact Hbest|]. split; [|split; [|split]].
  - intros dest. rewrite Hbest. unfold find_shortest_path.
    pose proof (scan_spec dest (Dict.values tbl) None) as H.
    destruct (fold_left (shortest_path_step dest) (Dict.values tbl) None).
    + destruct H as [[E _]|[Hfb _]]; [discriminate|exact Hfb].
    + apply H.
  - now apply announce_returns.
  - intros portN dest d. rewrite split_horizon_advertised.
    unfold get_distance. rewrite advertised_get by apply wf_all_shortest_paths.
    fold best. destruct (Dict.get dest best) as [[d' p]|].
    + destruct (Z.eqb_spec p portN) as [->|Hne]; split.
      * discriminate.
      * intros (q & E & Hq). inversion E; subst. contradiction.
      * intros E. inversion E; subst. eauto.
      * intros (q & E & Hq). now inversion E.
    + split; [discriminate|]. intros (q & E & _). discriminate.
  - intros portN. rewrite split_horizon_advertised.
    apply advertised_keys, wf_all_shortest_paths.
Qed.

Lemma two_neighbors_wf :
  Forall Dict.wf (Dict.values (routingTable two_neighbors)).
Proof.
  repeat constructor; simpl; intuition discriminate.
Defined.

Lemma two_neighbors_self_entries :
  has_self_entries (routingTable two_neighbors).
Proof.
  intros N routes [E|[E|[]]]; inversion E; reflexivity.
Defined.

Lemma announcer_sends_split_horizon_updates_witness :
  Forall Dict.wf (Dict.values (routingTable two_neighbors))
  /\ has_self_entries (routingTable two_neighbors)
  /\ sent (after _announce two_neighbors)
     = [(RoutingUpdate None [(Some "C", 2)], 1);
        (RoutingUpdate None [(Some "A", 1); (Some "B", 3)], 2)].
Proof.
  split; [exact two_neighbors_wf|]. split; [exact two_neighbors_self_entries|].
  unfold after.
  rewrite (proj1 (proj2 (proj2
            (announcer_sends_split_horizon_updates two_neighbors
               two_neighbors_wf two_neighbors_self_entries)))).
  reflexivity.
Defined.

(** ** Update merge handler *)

Lemma improves_set_other link paths info k v dest :
  dest <> k ->
  improves link paths (Dict.set k v info) dest = improves link paths info dest.
Proof.
  intros Hne. unfold improves. now rewrite get_set_other.
Qed.

Lemma bind_or_raise_Some {V B} k (v : V) (f : V -> M B) s :
  bind (or_raise k (Some v)) f s = f v s.
Proof. reflexivity. Qed.

Lemma merge_spec tbl N paths port routes link lp :
  Dict.get N tbl = Some routes ->
  Dict.get N routes = Some (link, lp) ->
  forall dests info u s,
    (forall dest, In dest dests -> get_distance paths dest <> None) ->
    exists info',
      merge tbl N paths port dests info u s
      = (s, Ret (info', u || existsb (improves link paths info) dests))
      /\ (forall dest,
            Dict.get dest info'
            = if is_dest dest dests && improves link paths info dest
              then option_map (fun advertised => (advertised + link, port))
                              (get_distance paths dest)
              else Dict.get dest info)
      /\ (Dict.wf info -> Dict.wf info').
Proof.
  intros HN Hself. induction dests as [|d rest IH]; intros info u s Hdests.
  - exists info. simpl. rewrite orb_false_r. auto.
  - destruct (get_distance paths d) as [adv|] eqn:Hadv;
      [|exfalso; apply (Hdests d); [now left|assumption]].
    assert (Hrest : forall dest, In dest rest -> get_distance paths dest <> None)
      by (intros; apply Hdests; now right).
    assert (Hgo : forall s',
      exists info',
        merge tbl N paths port rest (Dict.set d (adv + link, port) info) true s'
        = (s', Ret (info', true))
        /\ (forall dest,
              Dict.get dest info'
              = if is_dest dest (d :: rest) && improves link paths info dest
                then option_map (fun advertised => (advertised + link, port))
                                (get_distance paths dest)
                else if Entity_eqb dest d then Some (adv + link, port)
                     else Dict.get dest info)
        /\ (Dict.wf info -> Dict.wf info')).
    { intros s'.
      destruct (IH (Dict.set d (adv + link, port) info) true s' Hrest)
        as (info' & E & Hget & Hwf).
      exists info'. split; [exact E|]. split; [|auto using wf_set].
      intros dest. rewrite Hget. unfold is_dest. cbn [existsb].
      destruct (Entity_eqb_spec dest d) as [->|Hne].
      - unfold improves at 1. rewrite Hadv, get_set_same.
        replace (adv + link >? adv + link) with false
          by (rewrite Z.gtb_ltb; symmetry; apply Z.ltb_irrefl).
        rewrite andb_false_r. cbn [orb andb].
        unfold improves. rewrite Hadv. simpl.
        now destruct (Dict.get d info) as [[st q]|]; [destruct (st >? adv + link)|].
      - rewrite improves_set_other by assumption. cbn [orb].
        now rewrite get_set_other by assumption. }
    cbn [merge]. unfold getitem.
    rewrite Hadv, bind_or_raise_Some; cbv beta.
    rewrite HN, bind_or_raise_Some; cbv beta.
    rewrite Hself, bind_or_raise_Some; cbv beta. cbn [fst existsb].
    unfold improves at 1. rewrite Hadv.
    destruct (Dict.get d info) as [[stored q]|] eqn:Hd.
    + destruct (stored >? adv + link) eqn:Hgt.
      * destruct (Hgo s) as (info' & E & Hget & Hwf).
        exists info'. rewrite E, orb_true_r. split; [reflexivity|].
        split; [|exact Hwf]. intros dest. rewrite Hget.
        destruct (is_dest dest (d :: rest) && improves link paths info dest)
          eqn:Hc; auto.
        destruct (Entity_eqb_spec dest d) as [->|Hne]; auto.
        unfold is_dest, improves in Hc. cbn [existsb] in Hc.
        rewrite Entity_eqb_refl, Hadv, Hd, Hgt in Hc. discriminate.
      * destruct (IH info u s Hrest) as (info' & E & Hget & Hwf).
        exists info'. rewrite E. cbn [orb]. split; [reflexivity|].
        split; [|exact Hwf]. intros dest. rewrite Hget.
        unfold is_dest. cbn [existsb].
        destruct (Entity_eqb_spec dest d) as [->|Hne]; auto.
        unfold improves. rewrite Hadv, Hd, Hgt.
        now rewrite andb_false_r.
    + destruct (Hgo s) as (info' & E & Hget & Hwf).
      exists info'. rewrite E, orb_true_r. split; [reflexivity|].
      split; [|exact Hwf]. intros dest. rewrite Hget.
      destruct (is_dest dest (d :: rest) && improves link paths info dest)
        eqn:Hc; auto.
      destruct (Entity_eqb_spec dest d) as [->|Hne]; auto.
      unfold is_dest, improves in Hc. cbn [existsb] in Hc.
      rewrite Entity_eqb_refl, Hadv, Hd in Hc. discriminate.
Qed.

Lemma In_dests_get paths dest :
  In dest (all_dests paths) -> get_distance paths dest <> None.
Proof.
  intros Hin E. apply get_None_keys in E. contradiction.
Qed.

Lemma improves_dest link paths info dest :
  improves link paths info dest = true -> In dest (all_dests paths).
Proof.
  unfold improves. destruct (get_distance paths dest) eqn:E; [|discriminate].
  intros _. destruct (in_dec (fun a b => reflect_dec _ _ (Entity_eqb_spec a b))
                             dest (all_dests paths)) as [Hin|Hnotin]; auto.
  apply get_None_keys in Hnotin. unfold get_distance in E. congruence.
Qed.

Lemma is_dest_improves link paths info dest :
  is_dest dest (all_dests paths) && improves link paths info dest
  = improves link paths info dest.
Proof.
  destruct (improves link paths info dest) eqn:E; [|apply andb_false_r].
  rewrite andb_true_r. apply existsb_exists. exists dest.
  split; [now apply improves_dest in E | apply Entity_eqb_refl].
Qed.

Lemma no_improvement link paths info :
  existsb (improves link paths info) (all_dests paths) = false ->
  forall dest, improves link paths info dest = false.
Proof.
  intros Hex dest. destruct (improves link paths info dest) eqn:E; auto.
  rewrite <- Hex. symmetry. apply existsb_exists. exists dest.
  split; [now apply improves_dest in E | exact E].
Qed.

(** The handler on an advertisement from a neighbour that is in the table
    with its self-entry: what the merged route set is, and what the handler
    does with it. *)
Lemma handleRoutingUpdate_known N paths port s routes link lp :
  Dict.get N (routingTable s) = Some routes ->
  Dict.get N routes = Some (link, lp) ->
  exists routes',
    (forall dest,
        Dict.get dest routes'
        = if improves link paths routes dest
          then option_map (fun advertised => (advertised + link, port))
                          (get_distance paths dest)
          else Dict.get dest routes)
    /\ (Dict.wf routes -> Dict.wf routes')
    /\ _handleRoutingUpdate N paths port s
       = if existsb (improves link paths routes) (all_dests paths) then
           _announce (mkRouter (Dict.set N routes' (routingTable s)) (sent s)
                               (logged s ++ [(DEBUG, MsgUpdateFrom N port);
                                             (INFO, MsgTableUpdated N)]))
         else (mkRouter (routingTable s) (sent s)
                        (logged s ++ [(DEBUG, MsgUpdateFrom N port)]), Ret tt).
Proof.
  intros HN Hself.
  set (s1 := mkRouter (routingTable s) (sent s)
                      (logged s ++ [(DEBUG, MsgUpdateFrom N port)])).
  destruct (merge_spec (routingTable s) N paths port routes link lp HN Hself
              (all_dests paths) routes false s1 (In_dests_get paths))
    as (routes' & E & Hget & Hwf).
  exists routes'. split; [|split; [exact Hwf|]].
  - intros dest. rewrite Hget. now rewrite is_dest_improves.
  - unfold _handleRoutingUpdate.
    unfold bind at 1, logging at 1. unfold bind at 1, get_routingTable.
    cbn [routingTable sent logged]. fold s1.
    assert (Hmem : Dict.mem N (routingTable s) = true)
      by (apply mem_true_iff; eauto).
    rewrite Hmem. cbn [negb]. unfold getitem.
    rewrite HN, bind_or_raise_Some. unfold bind at 1. rewrite E.
    cbn [orb].
    destruct (existsb (improves link paths routes) (all_dests paths)).
    + unfold bind at 1, set_routingTable. unfold bind at 1, logging.
      unfold s1. cbn [routingTable sent logged]. now rewrite <- app_assoc.
    + reflexivity.
Qed.

(** C1: an advertisement arrives on [port] from a neighbour [N] that is in
    the table with self-entry [(link, lp)].  Afterwards [N]'s route set
    holds, for every destination [dest] advertised at distance [advertised],
    the route [(advertised + link, port)] when [dest] was absent before or
    stored with a strictly greater distance, and the old route (distance and
    port) otherwise, equal distances included; destinations that are not
    advertised keep their routes, no destination leaves the set, and the
    other neighbours' sets are untouched. *)
Theorem update_merges_strictly_better_routes :
  forall N paths port s routes link lp,
    Dict.get N (routingTable s) = Some routes ->
    Dict.get N routes = Some (link, lp) ->
    exists routes',
      Dict.get N (routingTable (after (_handleRoutingUpdate N paths port) s))
      = Some routes'
      /\ (forall dest advertised,
            get_distance paths dest = Some advertised ->
            Dict.get dest routes'
            = match Dict.get dest routes with
              | None => Some (advertised + link, port)
              | Some (stored, p) =>
                  if stored >? advertised + link
                  then Some (advertised + link, port)
                  else Some (stored, p)
              end)
      /\ (forall dest, get_distance paths dest = None ->
                       Dict.get dest routes' = Dict.get dest routes)
      /\ (forall dest, Dict.mem dest routes = true ->
                       Dict.mem dest routes' = true)
      /\ (forall k, k <> N ->
            Dict.get k (routingTable
                          (after (_handleRoutingUpdate N paths port) s))
            = Dict.get k (routingTable s)).
Proof.
  intros N paths port s routes link lp HN Hself.
  destruct (handleRoutingUpdate_known N paths port s routes link lp HN Hself)
    as (merged & Hget & _ & E).
  pose proof keeps_table_announce as K. unfold keeps_table, after in K.
  assert (Hpoint : forall r', (forall dest,
             Dict.get dest r'
             = if improves link paths routes dest
               then option_map (fun advertised => (advertised + link, port))
                               (get_distance paths dest)
               else Dict.get dest routes) ->
     (forall dest advertised,
         get_distance paths dest = Some advertised ->
         Dict.get dest r'
         = match Dict.get dest routes with
           | None => Some (advertised + link, port)
           | Some (stored, p) =>
               if stored >? advertised + link
               then Some (advertised + link, port)
               else Some (stored, p)
           end)
     /\ (forall dest, get_distance paths dest = None ->
                      Dict.get dest r' = Dict.get dest routes)
     /\ (forall dest, Dict.mem dest routes = true -> Dict.mem dest r' = true)).
  { intros r' Hr'. split; [|split].
    - intros dest adv Hadv. rewrite Hr'. unfold improves. rewrite Hadv.
      destruct (Dict.get dest routes) as [[stored p]|]; auto.
    - intros dest Hadv. rewrite Hr'. unfold improves. now rewrite Hadv.
    - intros dest. unfold Dict.mem. rewrite Hr'. unfold improves.
      destruct (get_distance paths dest) as [adv|]; auto.
      destruct (Dict.get dest routes) as [[stored p]|]; [|discriminate].
      destruct (stored >? adv + link); reflexivity. }
  unfold after. rewrite E.
  destruct (existsb (improves link paths routes) (all_dests paths)) eqn:Hch.
  - exists merged. rewrite K. cbn [routingTable].
    split; [apply get_set_same|].
    destruct (Hpoint merged Hget) as (H1 & H2 & H3).
    repeat split; auto. intros k Hk. now apply get_set_other.
  - exists routes. cbn [fst routingTable]. split; [exact HN|].
    destruct (Hpoint routes) as (H1 & H2 & H3).
    { intros dest. now rewrite (no_improvement _ _ _ Hch). }
    repeat split; auto.
Qed.

Lemma update_merges_strictly_better_routes_witness :
  exists routes',
    Dict.get (Some "A")
      (routingTable
         (after (_handleRoutingUpdate (Some "A")
                   [(Some "B", 2); (Some "C", 7)] 3) one_neighbor))
    = Some routes'
    /\ Dict.get (Some "B") routes' = Some (3, 3)
    /\ Dict.get (Some "C") routes' = Some (8, 3)
    /\ Dict.get (Some "A") routes' = Some (1, 1).
Proof.
  destruct (update_merges_strictly_better_routes (Some "A")
              [(Some "B", 2); (Some "C", 7)] 3 one_neighbor
              [(Some "A", (1, 1)); (Some "B", (5, 1))] 1 1
              eq_refl eq_refl)
    as (routes' & Htbl & Hadv & Hkeep & _).
  exists routes'. split; [exact Htbl|]. split; [|split].
  - exact (Hadv (Some "B") 2 eq_refl).
  - exact (Hadv (Some "C") 7 eq_refl).
  - exact (Hkeep (Some "A") eq_refl).
Defined.

(** ** The self-entry invariant over runs *)

Lemma table_ok_self_entries links tbl :
  table_ok links tbl -> has_self_entries tbl.
Proof.
  intros [_ H] N routes Hin. destruct (H N routes Hin) as (_ & r & _ & Hr).
  apply mem_true_iff. eauto.
Qed.

Lemma announce_ok links s :
  table_ok links (routingTable s) ->
  outcome _announce s = Ret tt
  /\ routingTable (after _announce s) = routingTable s.
Proof.
  intros Hok. unfold outcome, after.
  rewrite (announce_returns s (table_ok_self_entries _ _ Hok)). auto.
Qed.

Lemma table_ok_link_up links tbl src latency port :
  table_ok links tbl ->
  table_ok (fun N => link_after N (links N)
                       (DiscoveryPacket src latency true, port))
           (Dict.set src [(src, (latency, port))] tbl).
Proof.
  intros [Hwf H]. split; [now apply wf_set|].
  intros N routes Hin. apply In_set in Hin; [|assumption]. simpl.
  destruct Hin as [[-> ->]|[Hne Hin]].
  - rewrite Entity_eqb_refl. split.
    + repeat constructor. simpl. tauto.
    + exists (latency, port). simpl. now rewrite Entity_eqb_refl.
  - rewrite Entity_eqb_neq by congruence. auto.
Qed.

Lemma table_ok_pop links tbl src :
  table_ok links tbl -> table_ok links (Dict.pop src tbl).
Proof.
  intros [Hwf H]. split; [now apply wf_pop|].
  intros N routes Hin. apply In_pop in Hin. auto.
Qed.

Lemma table_ok_merged links tbl src routes routes' link paths port :
  table_ok links tbl ->
  Dict.get src tbl = Some routes ->
  Forall (fun entry => 0 <= snd entry) paths ->
  links src = Some link ->
  Dict.get src routes = Some link ->
  (Dict.wf routes -> Dict.wf routes') ->
  (forall dest,
      Dict.get dest routes'
      = if improves (fst link) paths routes dest
        then option_map (fun advertised => (advertised + fst link, port))
                        (get_distance paths dest)
        else Dict.get dest routes) ->
  table_ok links (Dict.set src routes' tbl).
Proof.
  intros [Hwf H] Hsrc Hpos Hlink Hself Hwf' Hget.
  split; [now apply wf_set|].
  intros N r Hin. apply In_set in Hin; [|assumption].
  destruct Hin as [[-> ->]|[Hne Hin]]; [|auto].
  destruct (H src routes (get_In _ _ _ Hsrc)) as (Hwfr & _).
  split; [auto|]. exists link. split; [assumption|].
  rewrite Hget. unfold improves.
  destruct (get_distance paths src) as [adv|] eqn:Hadv; [|assumption].
  rewrite Hself. destruct link as [d p]. cbn [fst].
  apply get_In in Hadv.
  rewrite Forall_forall in Hpos. specialize (Hpos _ Hadv). simpl in Hpos.
  replace (d >? adv + d) with false; [reflexivity|].
  symmetry. rewrite Z.gtb_ltb. apply Z.ltb_ge. lia.
Qed.

Lemma handle_rx_logged packet port s :
  handle_rx packet port s
  = match packet with
    | DiscoveryPacket src latency is_link_up =>
        _handleDiscoveryPacket src latency is_link_up port
    | RoutingUpdate src paths => _handleRoutingUpdate src paths port
    | DataPacket _ dst _ => _handleDataPacket packet dst port
    end (mkRouter (routingTable s) (sent s)
           (logged s ++ [(DEBUG, MsgReceived port (type_name packet))])).
Proof. reflexivity. Qed.

Lemma handleDiscoveryPacket_down src latency port s :
  _handleDiscoveryPacket src latency false port s
  = if Dict.mem src (routingTable s) then
      _announce (mkRouter (Dict.pop src (routingTable s)) (sent s)
                          (logged s ++ [(INFO, MsgLinkDown src)]))
    else (mkRouter (routingTable s) (sent s)
                   (logged s ++ [(INFO, MsgLinkDown src)]), Ret tt).
Proof.
  unfold _handleDiscoveryPacket, bind, logging, get_routingTable. simpl.
  now destruct (Dict.mem src (routingTable s)).
Qed.

Lemma handleRoutingUpdate_unknown src paths port s :
  Dict.mem src (routingTable s) = false ->
  _handleRoutingUpdate src paths port s
  = (mkRouter (routingTable s) (sent s)
              (logged s ++ [(DEBUG, MsgUpdateFrom src port);
                            (WARNING, MsgUnknownNeighbor src)]), Ret tt).
Proof.
  intros Hmem. unfold _handleRoutingUpdate, bind, logging, get_routingTable.
  simpl. rewrite Hmem. simpl. now rewrite <- app_assoc.
Qed.

Lemma handleDataPacket_returns packet dst port s :
  snd (_handleDataPacket packet dst port s) = Ret tt.
Proof.
  unfold _handleDataPacket, bind, logging, get_routingTable, send.
  cbn [routingTable sent logged].
  now destruct (find_shortest_path (routingTable s) dst).
Qed.

(** One event keeps the invariant and ends normally. *)
Lemma handle_rx_table_ok links packet port s :
  table_ok links (routingTable s) ->
  nonneg_event (packet, port) ->
  outcome (handle_rx packet port) s = Ret tt
  /\ table_ok (fun N => link_after N (links N) (packet, port))
              (routingTable (after (handle_rx packet port) s)).
Proof.
  intros Hok Hpos. unfold outcome, after. rewrite handle_rx_logged.
  set (s0 := mkRouter (routingTable s) (sent s) _).
  assert (Hok0 : table_ok links (routingTable s0)) by exact Hok.
  clearbody s0. clear Hok s.
  destruct packet as [src latency [|]|src paths|src dst payload].
  - (* link up *)
    pose proof (table_ok_link_up _ _ src latency port Hok0) as Hok'.
    change (_handleDiscoveryPacket src latency true port s0)
      with (_announce (mkRouter
                         (Dict.set src [(src, (latency, port))] (routingTable s0))
                         (sent s0) (logged s0 ++ [(INFO, MsgLinkUp src port)]))).
    set (s1 := mkRouter _ _ _) in *.
    destruct (announce_ok _ s1 Hok') as [Hout Htbl].
    unfold outcome, after in Hout, Htbl.
      split; [exact Hout | rewrite Htbl; exact Hok'].
  - (* link down *)
    rewrite handleDiscoveryPacket_down.
    destruct (Dict.mem src (routingTable s0)).
    + set (s1 := mkRouter _ _ _).
      assert (Hok' : table_ok links (routingTable s1))
        by (apply table_ok_pop; assumption).
      destruct (announce_ok _ s1 Hok') as [Hout Htbl].
      unfold outcome, after in Hout, Htbl.
      split; [exact Hout | rewrite Htbl; exact Hok'].
    + simpl. auto.
  - (* advertisement *)
    destruct (Dict.get src (routingTable s0)) as [routes|] eqn:Hsrc.
    + destruct Hok0 as [Hwf H].
      destruct (H src routes (get_In _ _ _ Hsrc)) as (Hwfr & [d p] & Hl & Hself).
      destruct (handleRoutingUpdate_known src paths port s0 routes d p
                  Hsrc Hself) as (routes' & Hget & Hwf' & E).
      rewrite E.
      destruct (existsb (improves d paths routes) (all_dests paths)).
      * set (s1 := mkRouter _ _ _).
        assert (Hok' : table_ok links (routingTable s1)).
        { apply (table_ok_merged links (routingTable s0) src routes routes'
                   (d, p) paths port); auto. now split. }
        destruct (announce_ok _ s1 Hok') as [Hout Htbl].
        unfold outcome, after in Hout, Htbl.
      split; [exact Hout | rewrite Htbl; exact Hok'].
      * simpl. split; [reflexivity|]. now split.
    + apply mem_false_iff in Hsrc.
      rewrite handleRoutingUpdate_unknown by assumption. simpl. auto.
  - (* data *)
    pose proof (keeps_table_handleDataPacket
                  (DataPacket src dst payload) dst port s0) as K.
    unfold after in K. rewrite K. split; [|exact Hok0].
    apply handleDataPacket_returns.
Qed.

Lemma run_table_ok events : forall links s,
  table_ok links (routingTable s) ->
  Forall nonneg_event events ->
  table_ok (fun N => fold_left (link_after N) events (links N))
           (routingTable (run events s))
  /\ Forall (fun r => r = Ret tt) (outcomes events s).
Proof.
  induction events as [|[packet port] rest IH]; intros links s Hok Hpos.
  - simpl. auto.
  - inversion Hpos as [|? ? Hhere Hrest]; subst.
    destruct (handle_rx_table_ok links packet port s Hok Hhere) as [Hout Hok'].
    destruct (IH _ _ Hok' Hrest) as [Hfinal Houts].
    simpl. split; [exact Hfinal|]. constructor; assumption.
Qed.

(** C4: run any sequence of received packets, with non-negative link and
    advertised distances, from the fresh router.  In the table reached,
    every neighbour [N] that is a key has in its own route set an entry for
    [N], holding the distance and the port of the most recent link-up of
    [N]; every handler along the run returned normally, so no self-entry
    lookup of the merge handler or of the announcer failed.  The table and
    its route sets are dictionaries with their self-entries. *)
Theorem self_entry_is_last_link_up :
  forall events,
    Forall nonneg_event events ->
    (forall N routes,
        Dict.get N (routingTable (run events init)) = Some routes ->
        exists d p, last_link_up N events = Some (d, p)
                    /\ Dict.get N routes = Some (d, p))
    /\ Forall (fun r => r = Ret tt) (outcomes events init)
    /\ Dict.wf (routingTable (run events init))
    /\ Forall Dict.wf (Dict.values (routingTable (run events init)))
    /\ has_self_entries (routingTable (run events init)).
Proof.
  intros events Hpos.
  assert (Hinit : table_ok (fun _ => None) (routingTable init)).
  { split; [constructor | intros ? ? []]. }
  destruct (run_table_ok events _ init Hinit Hpos) as [Hok Houts].
  fold (last_link_up) in Hok.
  split; [|split; [exact Houts|split; [apply Hok|split]]].
  - intros N routes Hget. apply get_In in Hget.
    destruct Hok as [_ H]. destruct (H N routes Hget) as (_ & [d p] & Hl & Hr).
    exists d, p. auto.
  - apply Forall_forall. intros routes Hin. unfold Dict.values in Hin.
    apply in_map_iff in Hin. destruct Hin as ([N r] & <- & Hin).
    destruct Hok as [_ H]. now destruct (H N r Hin).
  - exact (table_ok_self_entries _ _ Hok).
Qed.

Lemma sample_run_nonneg : Forall nonneg_event sample_run.
Proof.
  unfold sample_run, nonneg_event.
  repeat (constructor; simpl); try lia; discriminate.
Defined.

Lemma self_entry_is_last_link_up_witness :
  Forall nonneg_event sample_run
  /\ exists d p,
       last_link_up (Some "A") sample_run = Some (d, p)
       /\ Dict.get (Some "A") [(Some "A", (4, 2)); (Some "C", (5, 2))]
          = Some (d, p).
Proof.
  split; [exact sample_run_nonneg|].
  exact (proj1 (self_entry_is_last_link_up sample_run sample_run_nonneg)
           (Some "A") [(Some "A", (4, 2)); (Some "C", (5, 2))] eq_refl).
Defined.


(** ** The embedding at work on concrete routers *)

(** B is equally far through A and through C: the forwarder keeps the
    first neighbour scanned, A on port 1. *)
Example forward_tie_goes_to_first :
  sent (after (handle_rx (DataPacket (Some "X") (Some "B") "hello") 7)
              two_neighbors)
  = [(DataPacket (Some "X") (Some "B") "hello", 1)].
Proof. reflexivity. Qed.

(** Nobody knows a way to Z: nothing is sent and the handler returns. *)
Example forward_without_route :
  handle_rx (DataPacket (Some "X") (Some "Z") "hello") 7 two_neighbors
  = (mkRouter (routingTable two_neighbors) []
       [(INFO, MsgInit); (DEBUG, MsgReceived 7 "DataPacket");
        (DEBUG, MsgDataFor (Some "Z")); (WARNING, MsgNoRoute (Some "Z"))],
     Ret tt).
Proof. reflexivity. Qed.

(** A neighbour whose route set lost its self-entry makes the announcer
    raise, after it served the neighbours before it. *)
Example announce_without_self_entry :
  _announce (mkRouter [(Some "A", [(Some "A", (1, 1))]);
                       (Some "C", [(Some "B", (3, 2))])] [] [])
  = (mkRouter [(Some "A", [(Some "A", (1, 1))]);
               (Some "C", [(Some "B", (3, 2))])]
       [(RoutingUpdate None [(Some "B", 3)], 1)]
       [(INFO, MsgAnnouncing); (DEBUG, MsgSendingUpdate 1 (Some "A"))],
     KeyError (Some "C")).
Proof. reflexivity. Qed.

(** An equal candidate on another port changes nothing; a smaller one
    replaces distance and port. *)
Example merge_tie_and_improvement :
  routingTable (after (handle_rx (RoutingUpdate (Some "A") [(Some "B", 4)]) 3)
                      one_neighbor)
  = routingTable one_neighbor
  /\ routingTable (after (handle_rx (RoutingUpdate (Some "A") [(Some "B", 3)]) 3)
                         one_neighbor)
     = [(Some "A", [(Some "A", (1, 1)); (Some "B", (4, 3))])].
Proof. split; reflexivity. Qed.

(** * Further properties of the handlers *)

(** ** What the handlers hand to [send] *)

Lemma emits_ret {A} P (a : A) : emits P (ret a).
Proof. intros s. exists [], []. simpl. now rewrite !app_nil_r. Qed.

Lemma emits_logging P lvl msg : emits P (logging lvl msg).
Proof. intros s. exists [], [(lvl, msg)]. simpl. now rewrite app_nil_r. Qed.

Lemma emits_send (P : Packet * Port -> Prop) packet port :
  P (packet, port) -> emits P (send packet port).
Proof.
  intros HP s. exists [(packet, port)], []. simpl.
  rewrite app_nil_r. repeat split; auto.
Qed.

Lemma emits_get_routingTable P : emits P get_routingTable.
Proof. intros s. exists [], []. simpl. now rewrite !app_nil_r. Qed.

Lemma emits_set_routingTable P tbl : emits P (set_routingTable tbl).
Proof. intros s. exists [], []. simpl. now rewrite !app_nil_r. Qed.

Lemma emits_or_raise {V} P k (o : option V) : emits P (or_raise k o).
Proof.
  intros s. exists [], []. unfold after, or_raise.
  destruct o; simpl; now rewrite !app_nil_r.
Qed.

Lemma emits_bind {A B} P (m : M A) (f : A -> M B) :
  emits P m -> (forall a, emits P (f a)) -> emits P (bind m f).
Proof.
  intros Hm Hf s. unfold after, bind.
  destruct (Hm s) as (new & lg & Hs & HP & Hl). unfold after in Hs, Hl.
  destruct (m s) as [s' [a|k]]; simpl in *.
  - destruct (Hf a s') as (new' & lg' & Hs' & HP' & Hl').
    unfold after in Hs', Hl'. exists (new ++ new'), (lg ++ lg').
    rewrite Hs', Hl', Hs, Hl, <- !app_assoc. repeat split; auto.
    apply Forall_app. auto.
  - exists new, lg. auto.
Qed.

Lemma emits_for_each {A} P (l : list A) (body : A -> M unit) :
  (forall x, emits P (body x)) -> emits P (for_each l body).
Proof.
  intros Hb. induction l as [|x r IH]; simpl.
  - apply emits_ret.
  - apply emits_bind; auto.
Qed.

Lemma emits_merge P tbl N paths port dests : forall info u,
  emits P (merge tbl N paths port dests info u).
Proof.
  induction dests as [|d rest IH]; intros info u; cbn [merge].
  - apply emits_ret.
  - apply emits_bind; [apply emits_or_raise|intros adv].
    apply emits_bind; [apply emits_or_raise|intros routes].
    apply emits_bind; [apply emits_or_raise|intros self].
    destruct (Dict.get d info) as [[stored q]|]; [|apply IH].
    destruct (stored >? adv + fst self); apply IH.
Qed.

Lemma emits_announce : emits fresh_update _announce.
Proof.
  unfold _announce.
  apply emits_bind; [apply emits_logging|intros _].
  apply emits_bind; [apply emits_get_routingTable|intros tbl].
  apply emits_for_each. intros [neighbor neighbor_routes].
  apply emits_bind; [apply emits_or_raise|intros self].
  apply emits_bind; [apply emits_logging|intros _].
  apply emits_send. red. simpl. eauto.
Qed.

Lemma emits_handleDiscoveryPacket src latency is_link_up port :
  emits fresh_update (_handleDiscoveryPacket src latency is_link_up port).
Proof.
  unfold _handleDiscoveryPacket. destruct is_link_up.
  - apply emits_bind; [apply emits_logging|intros _].
    apply emits_bind; [apply emits_get_routingTable|intros tbl].
    apply emits_bind; [apply emits_set_routingTable|intros _].
    apply emits_announce.
  - apply emits_bind; [apply emits_logging|intros _].
    apply emits_bind; [apply emits_get_routingTable|intros tbl].
    destruct (Dict.mem src tbl); [|apply emits_ret].
    apply emits_bind; [apply emits_set_routingTable|intros _].
    apply emits_announce.
Qed.

Lemma emits_handleRoutingUpdate src paths port :
  emits fresh_update (_handleRoutingUpdate src paths port).
Proof.
  unfold _handleRoutingUpdate.
  apply emits_bind; [apply emits_logging|intros _].
  apply emits_bind; [apply emits_get_routingTable|intros tbl].
  destruct (negb (Dict.mem src tbl)); [apply emits_logging|].
  apply emits_bind; [apply emits_or_raise|intros info].
  apply emits_bind; [apply emits_merge|intros [info' updated]].
  destruct updated; [|apply emits_ret].
  apply emits_bind; [apply emits_set_routingTable|intros _].
  apply emits_bind; [apply emits_logging|intros _].
  apply emits_announce.
Qed.

Lemma emits_handleDataPacket packet dst port :
  emits (fun e => fst e = packet) (_handleDataPacket packet dst port).
Proof.
  unfold _handleDataPacket.
  apply emits_bind; [apply emits_logging|intros _].
  apply emits_bind; [apply emits_get_routingTable|intros tbl].
  destruct (find_shortest_path tbl dst) as [r|]; [|apply emits_logging].
  apply emits_bind; [apply emits_logging|intros _].
  now apply emits_send.
Qed.

(** X1: whatever packet arrives and however its handler ends, the packets
    handed to [send] so far and the log so far stay as they are and are only
    extended.  Every packet added while a data packet is handled is that
    data packet; every packet added while a link notification or an
    advertisement is handled is a [RoutingUpdate] with no source, so that a
    received link notification, or a received advertisement that carries a
    source, is not among the packets added. *)
Theorem handle_rx_only_appends :
  forall packet port s,
    exists new lg,
      sent (after (handle_rx packet port) s) = sent s ++ new
      /\ Forall (emitted_for packet) new
      /\ logged (after (handle_rx packet port) s) = logged s ++ lg
      /\ match packet with
         | DiscoveryPacket _ _ _ => ~ In packet (map fst new)
         | RoutingUpdate src _ => src <> None -> ~ In packet (map fst new)
         | DataPacket _ _ _ => True
         end.
Proof.
  intros packet port s.
  assert (H : emits (emitted_for packet) (handle_rx packet port)).
  { unfold handle_rx.
    apply emits_bind; [apply emits_logging|intros _].
    destruct packet as [src latency up|src paths|src dst payload]; simpl.
    - apply emits_handleDiscoveryPacket.
    - apply emits_handleRoutingUpdate.
    - apply emits_handleDataPacket. }
  destruct (H s) as (new & lg & Hsent & Hnew & Hlog).
  exists new, lg. repeat split; auto.
  rewrite Forall_forall in Hnew.
  destruct packet as [src latency up|src paths|src dst payload]; auto.
  - intros Hin. apply in_map_iff in Hin. destruct Hin as (e & He & Hin).
    destruct (Hnew e Hin) as [paths' Hshape]. congruence.
  - intros Hsrc Hin. apply in_map_iff in Hin. destruct Hin as (e & He & Hin).
    destruct (Hnew e Hin) as [paths' Hshape]. congruence.
Qed.

(** ** The advertisement handler, case by case *)

Lemma merge_state tbl N paths port dests : forall info u s,
  fst (merge tbl N paths port dests info u s) = s.
Proof.
  induction dests as [|d rest IH]; intros info u s; cbn [merge].
  - reflexivity.
  - unfold getitem, bind, or_raise.
    destruct (get_distance paths d) as [adv|]; [|reflexivity].
    destruct (Dict.get N tbl) as [routes|]; [|reflexivity].
    destruct (Dict.get N routes) as [self|]; [|reflexivity].
    destruct (Dict.get d info) as [[stored q]|]; [|apply IH].
    destruct (stored >? adv + fst self); apply IH.
Qed.

(** The handler as a case analysis on the table and on how the merge loop
    ends. *)
Lemma handleRoutingUpdate_cases src paths port s :
  let s1 := mkRouter (routingTable s) (sent s)
                     (logged s ++ [(DEBUG, MsgUpdateFrom src port)]) in
  _handleRoutingUpdate src paths port s
  = match Dict.get src (routingTable s) with
    | None =>
        (mkRouter (routingTable s) (sent s)
                  (logged s1 ++ [(WARNING, MsgUnknownNeighbor src)]), Ret tt)
    | Some neighbor_info =>
        match snd (merge (routingTable s) src paths port (all_dests paths)
                         neighbor_info false s1) with
        | Ret (merged, true) =>
            _announce (mkRouter (Dict.set src merged (routingTable s)) (sent s)
                                (logged s1 ++ [(INFO, MsgTableUpdated src)]))
        | Ret (_, false) => (s1, Ret tt)
        | KeyError k => (s1, KeyError k)
        end
    end.
Proof.
  intros s1. unfold _handleRoutingUpdate.
  unfold bind at 1, logging at 1. unfold bind at 1, get_routingTable.
  cbn [routingTable sent logged]. fold s1. unfold Dict.mem.
  destruct (Dict.get src (routingTable s)) as [info|] eqn:Hsrc; cbn [negb].
  - unfold getitem. rewrite Hsrc, bind_or_raise_Some. unfold bind at 1.
    pose proof (merge_state (routingTable s) src paths port (all_dests paths)
                            info false s1) as Hst.
    destruct (merge (routingTable s) src paths port (all_dests paths)
                    info false s1) as [s2 [[merged updated]|k]];
      simpl in Hst; subst s2; cbn [snd]; [|reflexivity].
    destruct updated; reflexivity.
  - reflexivity.
Qed.

(** However the handler ends, the table afterwards is the old one, or the old
    one with the set of the (present) source replaced. *)
Lemma handleRoutingUpdate_table src paths port s :
  routingTable (after (_handleRoutingUpdate src paths port) s) = routingTable s
  \/ (Dict.mem src (routingTable s) = true
      /\ exists merged,
           routingTable (after (_handleRoutingUpdate src paths port) s)
           = Dict.set src merged (routingTable s)).
Proof.
  unfold after. rewrite handleRoutingUpdate_cases. unfold Dict.mem.
  destruct (Dict.get src (routingTable s)) as [info|]; [|now left].
  destruct (snd (merge _ _ _ _ _ _ _ _)) as [[merged [|]]|k];
    [|now left|now left].
  right. split; [reflexivity|]. exists merged.
  pose proof keeps_table_announce as K. unfold keeps_table, after in K.
  now rewrite K.
Qed.

(** ** Which neighbours are keys of the table *)

Lemma mem_set k k' (v : Dict.t (Z * Port)) (d : Table) :
  Dict.mem k' (Dict.set k v d) = if Entity_eqb k k' then true else Dict.mem k' d.
Proof.
  unfold Dict.mem. destruct (Entity_eqb_spec k k') as [->|Hne].
  - now rewrite get_set_same.
  - rewrite get_set_other by congruence. reflexivity.
Qed.

Lemma mem_pop k k' (d : Table) :
  Dict.mem k' (Dict.pop k d) = if Entity_eqb k k' then false else Dict.mem k' d.
Proof.
  unfold Dict.mem. destruct (Entity_eqb_spec k k') as [->|Hne].
  - now rewrite get_pop_same.
  - rewrite get_pop_other by congruence. reflexivity.
Qed.

Lemma handle_rx_keys packet port s N :
  Dict.mem N (routingTable (after (handle_rx packet port) s))
  = is_up_after N (Dict.mem N (routingTable s)) (packet, port).
Proof.
  unfold after. rewrite handle_rx_logged.
  set (s0 := mkRouter (routingTable s) (sent s) _).
  change (routingTable s) with (routingTable s0). clearbody s0.
  pose proof keeps_table_announce as K. unfold keeps_table, after in K.
  unfold is_up_after. cbn [fst].
  destruct packet as [src latency [|]|src paths|src dst payload].
  - change (_handleDiscoveryPacket src latency true port s0)
      with (_announce (mkRouter
                         (Dict.set src [(src, (latency, port))] (routingTable s0))
                         (sent s0) (logged s0 ++ [(INFO, MsgLinkUp src port)]))).
    rewrite K. cbn [routingTable]. apply mem_set.
  - rewrite handleDiscoveryPacket_down.
    destruct (Dict.mem src (routingTable s0)) eqn:Hmem.
    + rewrite K. cbn [routingTable]. apply mem_pop.
    + cbn [fst routingTable].
      destruct (Entity_eqb_spec src N) as [->|Hne]; auto.
  - destruct (handleRoutingUpdate_table src paths port s0)
      as [E|(Hmem & merged & E)]; unfold after in E; rewrite E; auto.
    rewrite mem_set. destruct (Entity_eqb_spec src N) as [->|Hne]; auto.
  - pose proof (keeps_table_handleDataPacket
                  (DataPacket src dst payload) dst port s0) as Kd.
    unfold after in Kd. now rewrite Kd.
Qed.

(** X2: after any sequence of received packets, from the fresh router, a
    neighbour is a key of the routing table exactly when the latest link
    notification about it said that the link is up; advertisements and data
    packets never add or remove a key, whatever they carry and however
    their handlers end. *)
Theorem keys_are_the_links_that_are_up :
  forall events N,
    Dict.mem N (routingTable (run events init)) = link_is_up N events.
Proof.
  intros events N. unfold link_is_up.
  change false with (Dict.mem N (routingTable init)).
  generalize init. induction events as [|[packet port] rest IH]; intros s.
  - reflexivity.
  - cbn [run fold_left]. rewrite IH. now rewrite handle_rx_keys.
Qed.

(** ** No handler ever raises *)

Lemma merged_keeps_keys link paths port (routes routes' : Dict.t (Z * Port)) :
  (forall dest,
      Dict.get dest routes'
      = if improves link paths routes dest
        then option_map (fun advertised => (advertised + link, port))
                        (get_distance paths dest)
        else Dict.get dest routes) ->
  forall dest, Dict.mem dest routes = true -> Dict.mem dest routes' = true.
Proof.
  intros Hget dest. unfold Dict.mem. rewrite Hget. unfold improves.
  destruct (get_distance paths dest) as [adv|]; auto.
  destruct (Dict.get dest routes) as [[stored p]|]; [|discriminate].
  destruct (stored >? adv + link); reflexivity.
Qed.

Lemma sound_table_self_entries tbl : sound_table tbl -> has_self_entries tbl.
Proof. intros [_ H] N routes Hin. now destruct (H N routes Hin). Qed.

Lemma announce_sound s :
  sound_table (routingTable s) ->
  snd (_announce s) = Ret tt
  /\ routingTable (fst (_announce s)) = routingTable s.
Proof.
  intros Hok.
  rewrite (announce_returns s (sound_table_self_entries _ Hok)). auto.
Qed.

Lemma sound_table_set tbl N routes :
  sound_table tbl -> Dict.wf routes -> Dict.mem N routes = true ->
  sound_table (Dict.set N routes tbl).
Proof.
  intros [Hwf H] Hwfr Hmem. split; [now apply wf_set|].
  intros k r Hin. apply In_set in Hin; [|assumption].
  destruct Hin as [[-> ->]|[_ Hin]]; auto.
Qed.

Lemma sound_table_pop tbl N : sound_table tbl -> sound_table (Dict.pop N tbl).
Proof.
  intros [Hwf H]. split; [now apply wf_pop|].
  intros k r Hin. apply In_pop in Hin. auto.
Qed.

Lemma handle_rx_sound packet port s :
  sound_table (routingTable s) ->
  outcome (handle_rx packet port) s = Ret tt
  /\ sound_table (routingTable (after (handle_rx packet port) s)).
Proof.
  intros Hok. unfold outcome, after. rewrite handle_rx_logged.
  set (s0 := mkRouter (routingTable s) (sent s) _).
  assert (Hok0 : sound_table (routingTable s0)) by exact Hok.
  clearbody s0. clear Hok s.
  destruct packet as [src latency [|]|src paths|src dst payload].
  - change (_handleDiscoveryPacket src latency true port s0)
      with (_announce (mkRouter
                         (Dict.set src [(src, (latency, port))] (routingTable s0))
                         (sent s0) (logged s0 ++ [(INFO, MsgLinkUp src port)]))).
    set (s1 := mkRouter _ _ _).
    assert (Hok' : sound_table (routingTable s1)).
    { apply sound_table_set; auto.
      - repeat constructor. simpl. tauto.
      - unfold Dict.mem. simpl. now rewrite Entity_eqb_refl. }
    destruct (announce_sound s1 Hok') as [Hout Htbl].
    split; [exact Hout | rewrite Htbl; exact Hok'].
  - rewrite handleDiscoveryPacket_down.
    destruct (Dict.mem src (routingTable s0)).
    + set (s1 := mkRouter _ _ _).
      assert (Hok' : sound_table (routingTable s1))
        by (apply sound_table_pop; assumption).
      destruct (announce_sound s1 Hok') as [Hout Htbl].
      split; [exact Hout | rewrite Htbl; exact Hok'].
    + simpl. auto.
  - destruct (Dict.get src (routingTable s0)) as [routes|] eqn:Hsrc.
    + destruct (proj2 Hok0 src routes (get_In _ _ _ Hsrc)) as [Hwfr Hmem].
      apply mem_true_iff in Hmem. destruct Hmem as [[d p] Hself].
      destruct (handleRoutingUpdate_known src paths port s0 routes d p
                  Hsrc Hself) as (routes' & Hget & Hwf' & E).
      rewrite E.
      destruct (existsb (improves d paths routes) (all_dests paths)).
      * set (s1 := mkRouter _ _ _).
        assert (Hok' : sound_table (routingTable s1)).
        { apply sound_table_set; auto.
          apply (merged_keeps_keys d paths port routes routes' Hget).
          apply mem_true_iff. eauto. }
        destruct (announce_sound s1 Hok') as [Hout Htbl].
        split; [exact Hout | rewrite Htbl; exact Hok'].
      * simpl. auto.
    + apply mem_false_iff in Hsrc.
      rewrite handleRoutingUpdate_unknown by assumption. simpl. auto.
  - pose proof (keeps_table_handleDataPacket
                  (DataPacket src dst payload) dst port s0) as K.
    unfold after in K. rewrite K. split; [|exact Hok0].
    apply handleDataPacket_returns.
Qed.

(** X3: from the fresh router no sequence of received packets, whatever
    the distances they carry, makes a handler raise: every [handle_rx] of
    the run returns normally.  The table reached is a dictionary of
    dictionaries in which every neighbour's route set still holds an entry
    for the neighbour itself. *)
Theorem no_handler_ever_raises :
  forall events,
    Forall (fun r => r = Ret tt) (outcomes events init)
    /\ Dict.wf (routingTable (run events init))
    /\ Forall Dict.wf (Dict.values (routingTable (run events init)))
    /\ has_self_entries (routingTable (run events init)).
Proof.
  intros events.
  assert (Hinit : sound_table (routingTable init)).
  { split; [constructor | intros ? ? []]. }
  assert (G : forall s, sound_table (routingTable s) ->
            Forall (fun r => r = Ret tt) (outcomes events s)
            /\ sound_table (routingTable (run events s))).
  { induction events as [|[packet port] rest IH]; intros s Hok.
    - simpl. auto.
    - destruct (handle_rx_sound packet port s Hok) as [Hout Hok'].
      destruct (IH _ Hok') as [Houts Hfinal].
      simpl. split; [constructor|]; assumption. }
  destruct (G init Hinit) as [Houts Hok].
  split; [exact Houts|]. split; [apply Hok|]. split.
  - apply Forall_forall. intros routes Hin. unfold Dict.values in Hin.
    apply in_map_iff in Hin. destruct Hin as ([N r] & <- & Hin).
    now destruct (proj2 Hok N r Hin).
  - now apply sound_table_self_entries.
Qed.

(** ** More on merging advertisements *)

(** The route set of a known neighbour after its advertisement was handled,
    whether or not anything changed and however the announcer ended. *)
Lemma handleRoutingUpdate_after N paths port s routes link lp :
  Dict.get N (routingTable s) = Some routes ->
  Dict.get N routes = Some (link, lp) ->
  exists routes',
    Dict.get N (routingTable (after (_handleRoutingUpdate N paths port) s))
    = Some routes'
    /\ forall dest,
         Dict.get dest routes'
         = if improves link paths routes dest
           then option_map (fun advertised => (advertised + link, port))
                           (get_distance paths dest)
           else Dict.get dest routes.
Proof.
  intros HN Hself.
  destruct (handleRoutingUpdate_known N paths port s routes link lp HN Hself)
    as (merged & Hget & _ & E).
  pose proof keeps_table_announce as K. unfold keeps_table, after in K.
  unfold after. rewrite E.
  destruct (existsb (improves link paths routes) (all_dests paths)) eqn:Hch.
  - exists merged. rewrite K. cbn [routingTable].
    split; [apply get_set_same | exact Hget].
  - exists routes. split; [exact HN|].
    intros dest. now rewrite (no_improvement _ _ _ Hch).
Qed.

(** X4: an advertisement never makes a stored route worse.  For a known
    neighbour with its self-entry, every destination stored in its route
    set before the advertisement is still stored afterwards, with a
    distance that is at most the old one, whatever distance the neighbour
    now advertises for it. *)
Theorem update_never_worsens_a_route :
  forall N paths port s routes link lp dest stored p,
    Dict.get N (routingTable s) = Some routes ->
    Dict.get N routes = Some (link, lp) ->
    Dict.get dest routes = Some (stored, p) ->
    exists routes' stored' p',
      Dict.get N (routingTable (after (_handleRoutingUpdate N paths port) s))
      = Some routes'
      /\ Dict.get dest routes' = Some (stored', p')
      /\ stored' <= stored.
Proof.
  intros N paths port s routes link lp dest stored p HN Hself Hdest.
  destruct (handleRoutingUpdate_after N paths port s routes link lp HN Hself)
    as (routes' & Htbl & Hget).
  exists routes'. specialize (Hget dest). unfold improves in Hget.
  rewrite Hdest in Hget.
  destruct (get_distance paths dest) as [adv|].
  - destruct (stored >? adv + link) eqn:Hgt.
    + exists (adv + link), port. apply Z.gtb_lt in Hgt.
      repeat split; auto. lia.
    + exists stored, p. repeat split; auto. lia.
  - exists stored, p. repeat split; auto. lia.
Qed.

Lemma update_never_worsens_a_route_witness :
  exists routes' stored' p',
    Dict.get (Some "A")
      (routingTable
         (after (_handleRoutingUpdate (Some "A") [(Some "B", 9)] 3)
                one_neighbor))
    = Some routes'
    /\ Dict.get (Some "B") routes' = Some (stored', p')
    /\ stored' <= 5.
Proof.
  exact (update_never_worsens_a_route (Some "A") [(Some "B", 9)] 3
           one_neighbor [(Some "A", (1, 1)); (Some "B", (5, 1))] 1 1
           (Some "B") 5 1 eq_refl eq_refl eq_refl).
Defined.

(** X5: what an advertisement does to the self-entry.  When a known
    neighbour [N], with self-entry [(link, lp)], advertises a distance for
    [N] itself, the self-entry is replaced by (advertised + link, arrival
    port) if the advertised distance is negative, and is kept as it is
    otherwise. *)
Theorem self_advertisement_and_self_entry :
  forall N paths port s routes link lp advertised,
    Dict.get N (routingTable s) = Some routes ->
    Dict.get N routes = Some (link, lp) ->
    get_distance paths N = Some advertised ->
    exists routes',
      Dict.get N (routingTable (after (_handleRoutingUpdate N paths port) s))
      = Some routes'
      /\ Dict.get N routes'
         = if advertised <? 0 then Some (advertised + link, port)
           else Some (link, lp).
Proof.
  intros N paths port s routes link lp adv HN Hself Hadv.
  destruct (handleRoutingUpdate_after N paths port s routes link lp HN Hself)
    as (routes' & Htbl & Hget).
  exists routes'. split; [exact Htbl|].
  rewrite Hget. unfold improves. rewrite Hadv, Hself. simpl.
  rewrite Z.gtb_ltb.
  destruct (Z.ltb_spec (adv + link) link), (Z.ltb_spec adv 0);
    auto; lia.
Qed.

Lemma self_advertisement_and_self_entry_witness :
  exists routes',
    Dict.get (Some "A")
      (routingTable
         (after (_handleRoutingUpdate (Some "A") [(Some "A", -3)] 7)
                one_neighbor))
    = Some routes'
    /\ Dict.get (Some "A") routes' = Some (-2, 7).
Proof.
  exact (self_advertisement_and_self_entry (Some "A") [(Some "A", -3)] 7
           one_neighbor [(Some "A", (1, 1)); (Some "B", (5, 1))] 1 1 (-3)
           eq_refl eq_refl eq_refl).
Defined.

Lemma settled link paths port (routes routes' : Dict.t (Z * Port)) :
  (forall dest,
      Dict.get dest routes'
      = if improves link paths routes dest
        then option_map (fun advertised => (advertised + link, port))
                        (get_distance paths dest)
        else Dict.get dest routes) ->
  existsb (improves link paths routes') (all_dests paths) = false.
Proof.
  intros Hget.
  destruct (existsb (improves link paths routes') (all_dests paths)) eqn:Hex;
    [|reflexivity].
  apply existsb_exists in Hex. destruct Hex as (dest & _ & Himp).
  unfold improves in Himp. rewrite Hget in Himp. unfold improves in Himp.
  destruct (get_distance paths dest) as [adv|]; [|discriminate].
  destruct (Dict.get dest routes) as [[stored p]|]; simpl in Himp.
  - destruct (stored >? adv + link) eqn:Hgt; simpl in Himp.
    + rewrite Z.gtb_ltb, Z.ltb_irrefl in Himp. discriminate.
    + congruence.
  - rewrite Z.gtb_ltb, Z.ltb_irrefl in Himp. discriminate.
Qed.

(** X6: delivering an advertisement a second time changes nothing.  Take a
    known neighbour [N] with its self-entry and an advertisement that does
    not give a negative distance for [N] itself.  Once it was handled,
    handling the same advertisement again, on whatever port, returns
    normally with the table and the sent packets unchanged: no route is
    touched and the announcer does not run. *)
Theorem redelivered_update_is_ignored :
  forall N paths port port' s routes link lp,
    Dict.get N (routingTable s) = Some routes ->
    Dict.get N routes = Some (link, lp) ->
    (forall advertised, get_distance paths N = Some advertised ->
                        0 <= advertised) ->
    let s' := after (_handleRoutingUpdate N paths port) s in
    _handleRoutingUpdate N paths port' s'
    = (mkRouter (routingTable s') (sent s')
                (logged s' ++ [(DEBUG, MsgUpdateFrom N port')]), Ret tt).
Proof.
  intros N paths port port' s routes link lp HN Hself Hpos s'.
  destruct (handleRoutingUpdate_after N paths port s routes link lp HN Hself)
    as (routes' & Htbl & Hget).
  fold s' in Htbl.
  assert (Hself' : Dict.get N routes' = Some (link, lp)).
  { rewrite Hget. unfold improves.
    destruct (get_distance paths N) as [adv|] eqn:Hadv; [|exact Hself].
    rewrite Hself. specialize (Hpos adv eq_refl).
    replace (link >? adv + link) with false; [reflexivity|].
    symmetry. rewrite Z.gtb_ltb. apply Z.ltb_ge. lia. }
  destruct (handleRoutingUpdate_known N paths port' s' routes' link lp
              Htbl Hself') as (again & _ & _ & E).
  rewrite E. now rewrite (settled link paths port routes routes' Hget).
Qed.

Lemma redelivered_update_is_ignored_witness :
  let s' := after (_handleRoutingUpdate (Some "A")
                     [(Some "B", 2); (Some "C", 7)] 3) one_neighbor in
  _handleRoutingUpdate (Some "A") [(Some "B", 2); (Some "C", 7)] 4 s'
  = (mkRouter (routingTable s') (sent s')
              (logged s' ++ [(DEBUG, MsgUpdateFrom (Some "A") 4)]), Ret tt).
Proof.
  apply (redelivered_update_is_ignored (Some "A")
           [(Some "B", 2); (Some "C", 7)] 3 4 one_neighbor
           [(Some "A", (1, 1)); (Some "B", (5, 1))] 1 1 eq_refl eq_refl).
  intros advertised H. discriminate H.
Defined.

(** X7: a known neighbour whose route set holds no entry for the neighbour
    itself.  An advertisement with no entry is then handled normally and
    changes nothing; an advertisement with at least one entry makes the
    handler raise [KeyError] for the neighbour, before the table or the sent
    packets are touched. *)
Theorem update_without_self_entry :
  forall N paths port s routes,
    Dict.get N (routingTable s) = Some routes ->
    Dict.get N routes = None ->
    _handleRoutingUpdate N paths port s
    = (mkRouter (routingTable s) (sent s)
                (logged s ++ [(DEBUG, MsgUpdateFrom N port)]),
       match paths with
       | [] => Ret tt
       | _ :: _ => KeyError N
       end).
Proof.
  intros N paths port s routes HN Hself.
  rewrite handleRoutingUpdate_cases. rewrite HN.
  destruct paths as [|[d adv] rest]; [reflexivity|].
  cbn [all_dests map fst merge]. unfold getitem, bind, or_raise, get_distance.
  cbn [Dict.get]. rewrite Entity_eqb_refl, HN, Hself. reflexivity.
Qed.

Lemma update_without_self_entry_witness :
  _handleRoutingUpdate (Some "C") [(Some "B", 1)] 2
    (mkRouter [(Some "C", [(Some "B", (3, 2))])] [] [])
  = (mkRouter [(Some "C", [(Some "B", (3, 2))])] []
       [(DEBUG, MsgUpdateFrom (Some "C") 2)], KeyError (Some "C")).
Proof.
  exact (update_without_self_entry (Some "C") [(Some "B", 1)] 2
           (mkRouter [(Some "C", [(Some "B", (3, 2))])] [] [])
           [(Some "B", (3, 2))] eq_refl eq_refl).
Defined.

(** ** Links going down and coming up *)

Lemma In_pop_other {V} k0 (v0 : V) k d :
  In (k0, v0) (Dict.pop k d) -> k0 <> k /\ In (k0, v0) d.
Proof.
  induction d as [|[k' v'] r IH]; simpl; [tauto|].
  destruct (Entity_eqb_spec k k') as [->|Hne]; simpl.
  - intros H. destruct (IH H). auto.
  - intros [E|H]; [inversion E; subst; auto|]. destruct (IH H). auto.
Qed.

Lemma pop_set {V} k (v : V) d : Dict.pop k (Dict.set k v d) = Dict.pop k d.
Proof.
  induction d as [|[k' v'] r IH]; simpl.
  - now rewrite Entity_eqb_refl.
  - destruct (Entity_eqb k k') eqn:E; simpl; rewrite ?Entity_eqb_refl, ?E;
      congruence.
Qed.

Lemma pop_absent {V} k (d : Dict.t V) : Dict.mem k d = false -> Dict.pop k d = d.
Proof.
  unfold Dict.mem. induction d as [|[k' v'] r IH]; simpl; auto.
  destruct (Entity_eqb k k'); [discriminate|].
  intros H. now rewrite IH.
Qed.

Lemma scan_nothing D l : forall acc,
  (forall routes, In routes l -> Dict.get D routes = None) ->
  fold_left (shortest_path_step D) l acc = acc.
Proof.
  induction l as [|x l IH]; intros acc H; simpl; auto.
  rewrite IH by (intros; apply H; now right).
  unfold shortest_path_step. now rewrite (H x) by now left.
Qed.

Lemma handleDataPacket_drop packet dst port s :
  find_shortest_path (routingTable s) dst = None ->
  _handleDataPacket packet dst port s
  = (mkRouter (routingTable s) (sent s)
              (logged s ++ [(DEBUG, MsgDataFor dst); (WARNING, MsgNoRoute dst)]),
     Ret tt).
Proof.
  intros H. unfold _handleDataPacket, bind, logging, get_routingTable.
  cbn [routingTable sent logged]. rewrite H. simpl.
  now rewrite <- app_assoc.
Qed.

Lemma handleDataPacket_forward packet dst port s r :
  find_shortest_path (routingTable s) dst = Some r ->
  _handleDataPacket packet dst port s
  = (mkRouter (routingTable s) (sent s ++ [(packet, snd r)])
              (logged s ++ [(DEBUG, MsgDataFor dst);
                            (INFO, MsgForwarding (snd r) dst)]),
     Ret tt).
Proof.
  intros H. unfold _handleDataPacket, bind, logging, get_routingTable, send.
  cbn [routingTable sent logged]. rewrite H. simpl.
  now rewrite <- app_assoc.
Qed.

(** X8: routes learnt through a neighbour die with its link.  If the
    destination [D] is held by no route set other than [N]'s, then once the
    link-down of [N] is handled a data packet for [D] is dropped: nothing is
    sent for it and only log records are written. *)
Theorem link_down_drops_routes_via_neighbor :
  forall N latency port s D packet port',
    (forall k routes, In (k, routes) (routingTable s) -> k <> N ->
                      Dict.get D routes = None) ->
    let s' := after (_handleDiscoveryPacket N latency false port) s in
    Dict.mem N (routingTable s') = false
    /\ _handleDataPacket packet D port' s'
       = (mkRouter (routingTable s') (sent s')
                   (logged s' ++ [(DEBUG, MsgDataFor D);
                                  (WARNING, MsgNoRoute D)]),
          Ret tt).
Proof.
  intros N latency port s D packet port' Honly s'.
  pose proof keeps_table_announce as K. unfold keeps_table, after in K.
  assert (Htbl : routingTable s' = Dict.pop N (routingTable s)).
  { unfold s', after. rewrite handleDiscoveryPacket_down.
    destruct (Dict.mem N (routingTable s)) eqn:Hmem.
    - now rewrite K.
    - cbn [fst routingTable]. symmetry. now apply pop_absent. }
  split.
  - rewrite Htbl. apply mem_false_iff, get_pop_same.
  - apply handleDataPacket_drop. rewrite Htbl.
    unfold find_shortest_path. apply scan_nothing.
    intros routes Hin. unfold Dict.values in Hin.
    apply in_map_iff in Hin. destruct Hin as ([k r] & <- & Hin).
    apply In_pop_other in Hin. destruct Hin as [Hne Hin].
    exact (Honly k r Hin Hne).
Qed.

Lemma link_down_drops_routes_via_neighbor_witness :
  let s' := after (_handleDiscoveryPacket (Some "A") 1 false 1) one_neighbor in
  Dict.mem (Some "A") (routingTable s') = false
  /\ _handleDataPacket (DataPacket (Some "X") (Some "B") "hello") (Some "B") 5 s'
     = (mkRouter (routingTable s') (sent s')
                 (logged s' ++ [(DEBUG, MsgDataFor (Some "B"));
                                (WARNING, MsgNoRoute (Some "B"))]),
        Ret tt).
Proof.
  apply (link_down_drops_routes_via_neighbor (Some "A") 1 1 one_neighbor
           (Some "B") (DataPacket (Some "X") (Some "B") "hello") 5).
  intros k routes [E|[]] Hne. inversion E; subst. now elim Hne.
Defined.

(** X9: a link that comes up and goes down again leaves no trace in the
    table.  After link-up and then link-down of [N] the table is the
    original one without [N]; when [N] was no key before, it is exactly the
    original table, the other neighbours' sets and their order included. *)
Theorem link_up_then_down_restores_table :
  forall N d p latency p' s,
    routingTable
      (after (_handleDiscoveryPacket N latency false p')
             (after (_handleDiscoveryPacket N d true p) s))
    = if Dict.mem N (routingTable s) then Dict.pop N (routingTable s)
      else routingTable s.
Proof.
  intros N d p latency p' s.
  pose proof keeps_table_announce as K. unfold keeps_table, after in K.
  assert (Hup : routingTable (after (_handleDiscoveryPacket N d true p) s)
                = Dict.set N [(N, (d, p))] (routingTable s)).
  { unfold after.
    change (_handleDiscoveryPacket N d true p s)
      with (_announce (mkRouter (Dict.set N [(N, (d, p))] (routingTable s))
                         (sent s) (logged s ++ [(INFO, MsgLinkUp N p)]))).
    now rewrite K. }
  set (s1 := after (_handleDiscoveryPacket N d true p) s) in *.
  unfold after at 1. rewrite handleDiscoveryPacket_down.
  assert (Hmem : Dict.mem N (routingTable s1) = true).
  { rewrite Hup. apply mem_true_iff. eexists. apply get_set_same. }
  rewrite Hmem, K. cbn [routingTable]. rewrite Hup, pop_set.
  destruct (Dict.mem N (routingTable s)) eqn:E;
    [reflexivity | now apply pop_absent].
Qed.

(** ** Neighbours are routable *)

Lemma run_keys events N : forall s,
  Dict.mem N (routingTable (run events s))
  = fold_left (is_up_after N) events (Dict.mem N (routingTable s)).
Proof.
  induction events as [|[packet port] rest IH]; intros s.
  - reflexivity.
  - cbn [run fold_left]. rewrite IH. now rewrite handle_rx_keys.
Qed.

Lemma run_sound events : forall s,
  sound_table (routingTable s) -> sound_table (routingTable (run events s)).
Proof.
  induction events as [|[packet port] rest IH]; intros s Hok; simpl; auto.
  apply IH. now destruct (handle_rx_sound packet port s Hok).
Qed.

Lemma init_sound : sound_table (routingTable init).
Proof. split; [constructor | intros ? ? []]. Qed.

(** X10: a neighbour whose link is up can always be reached.  After any
    sequence of received packets from the fresh router, if the latest link
    notification about [N] said up, then a data packet for [N] is not
    dropped: the forwarder finds a route and sends the packet, once, out
    of that route's port. *)
Theorem neighbor_with_link_up_is_routable :
  forall events N src payload port,
    link_is_up N events = true ->
    let s := run events init in
    exists r,
      find_shortest_path (routingTable s) N = Some r
      /\ sent (after (handle_rx (DataPacket src N payload) port) s)
         = sent s ++ [(DataPacket src N payload, snd r)]
      /\ outcome (handle_rx (DataPacket src N payload) port) s = Ret tt.
Proof.
  intros events N src payload port Hup s.
  assert (Hmem : Dict.mem N (routingTable s) = true).
  { unfold s. rewrite run_keys. exact Hup. }
  apply mem_true_iff in Hmem. destruct Hmem as [routes Hroutes].
  pose proof (run_sound events init init_sound) as Hok. fold s in Hok.
  apply get_In in Hroutes.
  destruct (proj2 Hok N routes Hroutes) as [_ Hself].
  pose proof (scan_spec N (Dict.values (routingTable s)) None) as Hscan.
  fold (find_shortest_path (routingTable s) N) in Hscan.
  destruct (find_shortest_path (routingTable s) N) as [r|] eqn:Hfind.
  - exists r. split; [reflexivity|].
    unfold after, outcome. rewrite handle_rx_logged.
    rewrite (handleDataPacket_forward _ _ _ _ r) by exact Hfind.
    auto.
  - exfalso. destruct Hscan as [_ Hnone].
    assert (Hin : In routes (Dict.values (routingTable s))).
    { unfold Dict.values. change routes with (snd (N, routes)).
      now apply in_map. }
    apply Hnone in Hin. apply mem_true_iff in Hself.
    destruct Hself as [v Hv]. congruence.
Qed.

Lemma neighbor_with_link_up_is_routable_witness :
  exists r,
    find_shortest_path (routingTable (run sample_run init)) (Some "A") = Some r
    /\ sent (after (handle_rx (DataPacket (Some "X") (Some "A") "hello") 9)
                   (run sample_run init))
       = sent (run sample_run init)
           ++ [(DataPacket (Some "X") (Some "A") "hello", snd r)]
    /\ outcome (handle_rx (DataPacket (Some "X") (Some "A") "hello") 9)
               (run sample_run init) = Ret tt.
Proof.
  exact (neighbor_with_link_up_is_routable sample_run (Some "A") (Some "X")
           "hello" 9 eq_refl).
Defined.

(** ** Non-negative distances in, non-negative distances out *)

Lemma Forall_set {V} (P : Entity * V -> Prop) k v d :
  Forall P d -> P (k, v) -> Forall P (Dict.set k v d).
Proof.
  intros Hd Hv. induction d as [|[k' v'] r IH]; simpl.
  - auto.
  - inversion Hd; subst. destruct (Entity_eqb k k'); auto.
Qed.

Lemma Forall_pop {V} (P : Entity * V -> Prop) k d :
  Forall P d -> Forall P (Dict.pop k d).
Proof.
  intros Hd. induction d as [|[k' v'] r IH]; simpl; auto.
  inversion Hd; subst. destruct (Entity_eqb k k'); auto.
Qed.

Lemma nonneg_relax acc e :
  nonneg_routes acc -> 0 <= fst (snd e) -> nonneg_routes (relax acc e).
Proof.
  destruct e as [k [d p]]. unfold relax, nonneg_routes. intros Hacc He.
  destruct (Dict.get k acc) as [[b q]|]; [destruct (b >? d)|];
    auto using Forall_set.
Qed.

Lemma nonneg_fold_relax routes : forall acc,
  nonneg_routes acc -> nonneg_routes routes ->
  nonneg_routes (fold_left relax routes acc).
Proof.
  induction routes as [|e r IH]; intros acc Hacc Hr; simpl; auto.
  inversion Hr; subst. apply IH; auto using nonneg_relax.
Qed.

Lemma nonneg_all_shortest_paths tbl :
  nonneg_table tbl -> nonneg_routes (all_shortest_paths tbl).
Proof.
  unfold all_shortest_paths, nonneg_table, Dict.values.
  assert (G : forall (items : Table) acc,
            nonneg_routes acc ->
            Forall (fun item => nonneg_routes (snd item)) items ->
            nonneg_routes
              (fold_left
                 (fun acc routes => fold_left relax (Dict.items routes) acc)
                 (map snd items) acc)).
  { induction items as [|[k routes] r IH]; intros acc Hacc Hi; simpl; auto.
    inversion Hi; subst. apply IH; auto.
    now apply nonneg_fold_relax. }
  intros H. apply G; [constructor | exact H].
Qed.

Lemma nonneg_split_horizon best portN :
  nonneg_routes best ->
  Forall (fun entry => 0 <= snd entry) (split_horizon best portN).
Proof.
  rewrite split_horizon_advertised. unfold advertised, nonneg_routes.
  intros H. apply Forall_forall. intros [dest d] Hin.
  apply in_map_iff in Hin. destruct Hin as ([k [d' p]] & E & Hin).
  apply filter_In in Hin. destruct Hin as [Hin _].
  rewrite Forall_forall in H. specialize (H _ Hin).
  simpl in *. inversion E; subst. exact H.
Qed.

Lemma announce_nonneg s :
  nonneg_router s -> nonneg_router (fst (_announce s)).
Proof.
  intros (Hok & Hpos & Hsent).
  rewrite (announce_returns s (sound_table_self_entries _ Hok)).
  cbn [fst]. split; [exact Hok|]. split; [exact Hpos|].
  cbn [sent]. apply Forall_app. split; [exact Hsent|].
  apply Forall_forall. intros e Hin. apply in_map_iff in Hin.
  destruct Hin as (item & <- & _). unfold update_for, nonneg_event.
  cbn [fst]. now apply nonneg_split_horizon, nonneg_all_shortest_paths.
Qed.

Lemma nonneg_merged link paths port (routes routes' : Dict.t (Z * Port)) :
  0 <= link ->
  Forall (fun entry => 0 <= snd entry) paths ->
  nonneg_routes routes ->
  Dict.wf routes' ->
  (forall dest,
      Dict.get dest routes'
      = if improves link paths routes dest
        then option_map (fun advertised => (advertised + link, port))
                        (get_distance paths dest)
        else Dict.get dest routes) ->
  nonneg_routes routes'.
Proof.
  intros Hlink Hpaths Hroutes Hwf Hget.
  apply Forall_forall. intros [dest [d p]] Hin. cbn [fst snd].
  apply In_get in Hin; [|exact Hwf]. rewrite Hget in Hin.
  unfold nonneg_routes in Hroutes. rewrite Forall_forall in Hroutes, Hpaths.
  destruct (improves link paths routes dest) eqn:Himp.
  - destruct (get_distance paths dest) as [adv|] eqn:Hadv; [|discriminate].
    apply get_In in Hadv. specialize (Hpaths _ Hadv). simpl in *.
    inversion Hin; subst. lia.
  - apply get_In in Hin. exact (Hroutes _ Hin).
Qed.

(** One event with non-negative distances keeps the router non-negative. *)
Lemma handle_rx_nonneg packet port s :
  nonneg_router s -> nonneg_event (packet, port) ->
  nonneg_router (after (handle_rx packet port) s).
Proof.
  intros Hs Hev. unfold after. rewrite handle_rx_logged.
  set (s0 := mkRouter (routingTable s) (sent s) _).
  assert (Hs0 : nonneg_router s0) by exact Hs.
  clearbody s0. clear Hs s. destruct Hs0 as (Hok & Hpos & Hsent).
  unfold nonneg_event in Hev. cbn [fst] in Hev.
  destruct packet as [src latency [|]|src paths|src dst payload].
  - change (_handleDiscoveryPacket src latency true port s0)
      with (_announce (mkRouter
                         (Dict.set src [(src, (latency, port))] (routingTable s0))
                         (sent s0) (logged s0 ++ [(INFO, MsgLinkUp src port)]))).
    apply announce_nonneg. split; [|split]; cbn [routingTable sent].
    + apply sound_table_set; auto.
      * repeat constructor. simpl. tauto.
      * unfold Dict.mem. simpl. now rewrite Entity_eqb_refl.
    + apply Forall_set; auto. repeat constructor. simpl. auto.
    + exact Hsent.
  - rewrite handleDiscoveryPacket_down.
    destruct (Dict.mem src (routingTable s0)).
    + apply announce_nonneg. split; [|split]; cbn [routingTable sent].
      * now apply sound_table_pop.
      * now apply Forall_pop.
      * exact Hsent.
    + split; [|split]; assumption.
  - destruct (Dict.get src (routingTable s0)) as [routes|] eqn:Hsrc.
    + pose proof (get_In _ _ _ Hsrc) as Hin.
      destruct (proj2 Hok src routes Hin) as [Hwfr Hmem].
      apply mem_true_iff in Hmem. destruct Hmem as [[d p] Hself].
      assert (Hr : nonneg_routes routes).
      { unfold nonneg_table in Hpos. rewrite Forall_forall in Hpos.
        exact (Hpos _ Hin). }
      assert (Hd : 0 <= d).
      { unfold nonneg_routes in Hr. rewrite Forall_forall in Hr.
        exact (Hr _ (get_In _ _ _ Hself)). }
      destruct (handleRoutingUpdate_known src paths port s0 routes d p
                  Hsrc Hself) as (routes' & Hget & Hwf' & E).
      rewrite E.
      destruct (existsb (improves d paths routes) (all_dests paths)).
      * apply announce_nonneg. split; [|split]; cbn [routingTable sent].
        -- apply sound_table_set; auto.
           apply (merged_keeps_keys d paths port routes routes' Hget).
           apply mem_true_iff. eauto.
        -- apply Forall_set; auto. cbn [snd].
           apply (nonneg_merged d paths port routes routes'); auto.
        -- exact Hsent.
      * split; [|split]; assumption.
    + apply mem_false_iff in Hsrc.
      rewrite handleRoutingUpdate_unknown by assumption.
      split; [|split]; assumption.
  - destruct (find_shortest_path (routingTable s0) dst) as [r|] eqn:Hfind.
    + rewrite (handleDataPacket_forward _ _ _ _ r) by exact Hfind.
      split; [|split]; cbn [fst routingTable sent]; auto.
      apply Forall_app. split; [exact Hsent|].
      repeat constructor.
    + rewrite handleDataPacket_drop by exact Hfind.
      split; [|split]; assumption.
Qed.

Lemma run_nonneg events : forall s,
  nonneg_router s -> Forall nonneg_event events ->
  nonneg_router (run events s).
Proof.
  induction events as [|[packet port] rest IH]; intros s Hs Hev; simpl; auto.
  inversion Hev; subst. apply IH; auto. now apply handle_rx_nonneg.
Qed.

(** X11: non-negative distances in, non-negative distances out.  If every
    link-up and every advertisement received since the router was created
    carries non-negative distances, then every distance stored in the table
    is non-negative and so is every distance in every advertisement the
    router has sent: what it sends meets the condition it needs on what it
    receives. *)
Theorem nonneg_in_nonneg_out :
  forall events,
    Forall nonneg_event events ->
    Forall nonneg_event (sent (run events init))
    /\ forall N routes dest d p,
         Dict.get N (routingTable (run events init)) = Some routes ->
         Dict.get dest routes = Some (d, p) ->
         0 <= d.
Proof.
  intros events Hev.
  assert (Hinit : nonneg_router init).
  { split; [exact init_sound|]. split; constructor. }
  destruct (run_nonneg events init Hinit Hev) as (_ & Hpos & Hsent).
  split; [exact Hsent|].
  intros N routes dest d p HN Hdest.
  unfold nonneg_table in Hpos. rewrite Forall_forall in Hpos.
  specialize (Hpos _ (get_In _ _ _ HN)). cbn [snd] in Hpos.
  unfold nonneg_routes in Hpos. rewrite Forall_forall in Hpos.
  exact (Hpos _ (get_In _ _ _ Hdest)).
Qed.

Lemma nonneg_in_nonneg_out_witness :
  Forall nonneg_event sample_run
  /\ Forall nonneg_event (sent (run sample_run init)).
Proof.
  split; [exact sample_run_nonneg|].
  exact (proj1 (nonneg_in_nonneg_out sample_run sample_run_nonneg)).
Defined.

(** ** Announcing after a merge *)

(** The announcer writes its log line first, however it ends. *)
Lemma announce_logs s :
  exists lg, logged (fst (_announce s)) = logged s ++ (INFO, MsgAnnouncing) :: lg.
Proof.
  unfold _announce. unfold bind at 1, logging at 1.
  match goal with
  | |- context [fst (?m ?s1)] =>
      assert (Hm : emits fresh_update m);
      [|destruct (Hm s1) as (new & lg & _ & _ & Hl)]
  end.
  - apply emits_bind; [apply emits_get_routingTable|intros tbl].
    apply emits_for_each. intros [neighbor neighbor_routes].
    apply emits_bind; [apply emits_or_raise|intros self].
    apply emits_bind; [apply emits_logging|intros _].
    apply emits_send. red. simpl. eauto.
  - exists lg. unfold after in Hl. rewrite Hl. cbn [logged].
    now rewrite <- app_assoc.
Qed.

Lemma not_added_or_lowered_same (routes : Dict.t (Z * Port)) :
  ~ added_or_lowered routes routes.
Proof.
  intros [dest H]. destruct (Dict.get dest routes) as [[stored p]|]; [lia|auto].
Qed.

(** C5: an advertisement arrives on [port] from a neighbour [N] that is in
    the table with self-entry [(link, lp)].  Let [routes] be [N]'s route set
    before and [routes'] the one found in the table afterwards; [routes'] is
    the merge of the advertisement into [routes].  The announcer runs (its
    log line is among the records written) if and only if some destination
    was added to the set or is now stored with a strictly smaller distance,
    which is the case exactly when some advertised destination was absent
    or stored with a distance strictly greater than advertised + link.
    When that happens the handler stores [routes'] under [N] and continues
    as the announcer; when it does not, [routes'] is [routes], and the
    handler returns with the table and the sent packets exactly as they
    were. *)
Theorem update_announces_iff_changed :
  forall N paths port s routes link lp,
    Dict.get N (routingTable s) = Some routes ->
    Dict.get N routes = Some (link, lp) ->
    let s' := after (_handleRoutingUpdate N paths port) s in
    exists routes' lg,
      Dict.get N (routingTable s') = Some routes'
      /\ (forall dest,
            Dict.get dest routes'
            = match get_distance paths dest with
              | None => Dict.get dest routes
              | Some advertised =>
                  match Dict.get dest routes with
                  | None => Some (advertised + link, port)
                  | Some (stored, p) =>
                      if stored >? advertised + link
                      then Some (advertised + link, port)
                      else Some (stored, p)
                  end
              end)
      /\ logged s' = logged s ++ lg
      /\ (In (INFO, MsgAnnouncing) lg <-> added_or_lowered routes routes')
      /\ (added_or_lowered routes routes' <->
          exists dest advertised,
            get_distance paths dest = Some advertised
            /\ (Dict.get dest routes = None
                \/ exists stored p, Dict.get dest routes = Some (stored, p)
                                    /\ advertised + link < stored))
      /\ (added_or_lowered routes routes' ->
          _handleRoutingUpdate N paths port s
          = _announce (mkRouter (Dict.set N routes' (routingTable s)) (sent s)
                         (logged s ++ [(DEBUG, MsgUpdateFrom N port);
                                       (INFO, MsgTableUpdated N)])))
      /\ (~ added_or_lowered routes routes' ->
          routes' = routes
          /\ _handleRoutingUpdate N paths port s
             = (mkRouter (routingTable s) (sent s)
                         (logged s ++ [(DEBUG, MsgUpdateFrom N port)]),
                Ret tt)).
Proof.
  intros N paths port s routes link lp HN Hself s'.
  destruct (handleRoutingUpdate_known N paths port s routes link lp HN Hself)
    as (merged & Hget & _ & E).
  pose proof keeps_table_announce as K. unfold keeps_table, after in K.
  (* the input-side reading of "some entry improves" *)
  assert (Hinput :
    existsb (improves link paths routes) (all_dests paths) = true <->
    exists dest advertised,
      get_distance paths dest = Some advertised
      /\ (Dict.get dest routes = None
          \/ exists stored p, Dict.get dest routes = Some (stored, p)
                              /\ advertised + link < stored)).
  { rewrite existsb_exists. split.
    - intros (dest & Hin & Himp). unfold improves in Himp.
      destruct (get_distance paths dest) as [adv|] eqn:Hadv; [|discriminate].
      exists dest, adv. split; auto.
      destruct (Dict.get dest routes) as [[stored p]|]; auto.
      right. exists stored, p. split; auto. apply Z.gtb_lt in Himp. lia.
    - intros (dest & adv & Hadv & Hcase). exists dest.
      assert (Himp : improves link paths routes dest = true).
      { unfold improves. rewrite Hadv.
        destruct Hcase as [->|(stored & p & -> & Hlt)]; auto.
        apply Z.gtb_lt. lia. }
      split; [now apply improves_dest in Himp | exact Himp]. }
  (* the merged set, read pointwise without [improves] *)
  assert (Hpin : forall r',
    (forall dest,
        Dict.get dest r'
        = if improves link paths routes dest
          then option_map (fun advertised => (advertised + link, port))
                          (get_distance paths dest)
          else Dict.get dest routes) ->
    forall dest,
      Dict.get dest r'
      = match get_distance paths dest with
        | None => Dict.get dest routes
        | Some advertised =>
            match Dict.get dest routes with
            | None => Some (advertised + link, port)
            | Some (stored, p) =>
                if stored >? advertised + link
                then Some (advertised + link, port)
                else Some (stored, p)
            end
        end).
  { intros r' Hr' dest. rewrite Hr'. unfold improves.
    destruct (get_distance paths dest) as [adv|]; auto.
    destruct (Dict.get dest routes) as [[stored p]|]; auto. }
  destruct (existsb (improves link paths routes) (all_dests paths)) eqn:Hch.
  - (* something improves: the merged set is stored, the announcer runs *)
    set (s1 := mkRouter (Dict.set N merged (routingTable s)) (sent s)
                 (logged s ++ [(DEBUG, MsgUpdateFrom N port);
                               (INFO, MsgTableUpdated N)])) in E.
    destruct (announce_logs s1) as [lg' Hlg].
    assert (Hchanged : added_or_lowered routes merged).
    { apply existsb_exists in Hch. destruct Hch as (dest & _ & Himp).
      exists dest. rewrite Hget, Himp. unfold improves in Himp.
      destruct (get_distance paths dest) as [adv|]; [|discriminate].
      simpl. destruct (Dict.get dest routes) as [[stored p]|]; auto.
      apply Z.gtb_lt in Himp. lia. }
    exists merged,
      ([(DEBUG, MsgUpdateFrom N port); (INFO, MsgTableUpdated N)]
         ++ (INFO, MsgAnnouncing) :: lg').
    unfold s', after. rewrite E.
    split; [rewrite K; cbn [routingTable]; apply get_set_same|].
    split; [exact (Hpin merged Hget)|].
    split; [rewrite Hlg; unfold s1; cbn [logged]; now rewrite <- app_assoc|].
    split; [split; [intros _; exact Hchanged|]|].
    { intros _. apply in_or_app. right. now left. }
    split; [split; [intros _; now apply Hinput | intros _; exact Hchanged]|].
    split; [intros _; reflexivity | intros Hno; contradiction].
  - (* nothing improves: nothing is stored, the announcer does not run *)
    assert (Hsame : forall dest,
              Dict.get dest routes
              = if improves link paths routes dest
                then option_map (fun advertised => (advertised + link, port))
                                (get_distance paths dest)
                else Dict.get dest routes)
      by (intros dest; now rewrite (no_improvement _ _ _ Hch)).
    exists routes, [(DEBUG, MsgUpdateFrom N port)].
    unfold s', after. rewrite E. cbn [fst routingTable logged].
    split; [exact HN|].
    split; [exact (Hpin routes Hsame)|].
    split; [reflexivity|].
    split; [split|].
    { intros [Habs|[]]. discriminate Habs. }
    { intros Habs. now apply not_added_or_lowered_same in Habs. }
    split; [split|].
    { intros Habs. now apply not_added_or_lowered_same in Habs. }
    { intros Hex. apply Hinput in Hex. discriminate Hex. }
    split; [intros Habs; now apply not_added_or_lowered_same in Habs|].
    intros _. split; reflexivity.
Qed.

Lemma update_announces_iff_changed_witness :
  let s' := after (_handleRoutingUpdate (Some "A") [(Some "B", 2)] 3)
                  one_neighbor in
  exists routes' lg,
    Dict.get (Some "A") (routingTable s') = Some routes'
    /\ Dict.get (Some "B") routes' = Some (3, 3)
    /\ logged s' = logged one_neighbor ++ lg
    /\ (In (INFO, MsgAnnouncing) lg
        <-> added_or_lowered [(Some "A", (1, 1)); (Some "B", (5, 1))] routes').
Proof.
  destruct (update_announces_iff_changed (Some "A") [(Some "B", 2)] 3
              one_neighbor [(Some "A", (1, 1)); (Some "B", (5, 1))] 1 1
              eq_refl eq_refl)
    as (routes' & lg & Htbl & Hpin & Hlog & Hiff & _).
  exists routes', lg. split; [exact Htbl|]. split; [exact (Hpin (Some "B"))|].
  split; [exact Hlog | exact Hiff].
Defined.
